(** * Rocket powered landing by successive convexification

    A shallow embedding of
    [AerialNavigation/rocket_powered_landing/rocket_powered_landing.py]:
    the 6-DoF dynamics model [Rocket_Model_6DoF] (vector field, analytic
    Jacobians, boundary values, initial guess, convex constraint set) and
    the seeding of the augmented ODE in [Integrator].

    NumPy's double-precision arrays are read as vectors and matrices of
    real numbers: a float literal [0.01] is the real [1/100], [np.sqrt]
    is the real square root.  Rounding is outside this development. *)

From Stdlib Require Import Reals Lra Lia List Bool Arith ZArith QArith_base.
Import ListNotations.

Set Implicit Arguments.

(** ** Arithmetic interface

    The bodies of [f_func], [A_func] and [B_func] only use literals,
    [+ - * /], unary minus, integer powers and [np.sqrt], on whatever the
    entries of [x] and [u] are.  They are embedded once, over this
    interface, and read at two instances: the reals (values) and the
    reals with a log of side conditions (which divisions and square roots
    were taken). *)

Class Arith (T : Type) : Type := {
  lit : R -> T;
  add : T -> T -> T;
  sub : T -> T -> T;
  mul : T -> T -> T;
  div : T -> T -> T;
  opp : T -> T;
  pw : T -> nat -> T;
  sqrt_ : T -> T
}.

Declare Scope arith_scope.
Delimit Scope arith_scope with A.
Notation "$ r" := (lit r%R) (at level 9, r at level 9, format "$ r") : arith_scope.
Infix "+" := add : arith_scope.
Infix "-" := sub : arith_scope.
Infix "*" := mul : arith_scope.
Infix "/" := div : arith_scope.
Notation "- x" := (opp x) : arith_scope.
Notation "x ** n" := (pw x n%nat) (at level 30, right associativity) : arith_scope.

(** [x[i]] on a one-dimensional array. *)
Definition item {T} `{Arith T} (x : list T) (i : nat) : T := nth i x (lit 0%R).
Notation "x .[ i ]" := (item x i%nat) (at level 1, left associativity, format "x .[ i ]") : arith_scope.

#[export] Instance R_Arith : Arith R := {|
  lit := fun r => r;
  add := Rplus;
  sub := Rminus;
  mul := Rmult;
  div := Rdiv;
  opp := Ropp;
  pw := pow;
  sqrt_ := sqrt
|}.

(** Side conditions of real arithmetic: a divisor must not vanish, a
    radicand must not be negative. *)
Inductive obligation : Type :=
| NonZero (d : R)
| NonNeg (r : R).

Definition holds (o : obligation) : Prop :=
  match o with
  | NonZero d => d <> 0%R
  | NonNeg r => (0 <= r)%R
  end.

Record checked : Type := Checked { val : R; obl : list obligation }.

Definition pure (r : R) : checked := Checked r [].

Definition lift2 (op : R -> R -> R) (a b : checked) : checked :=
  Checked (op (val a) (val b)) (obl a ++ obl b).

#[export] Instance checked_Arith : Arith checked := {|
  lit := pure;
  add := lift2 Rplus;
  sub := lift2 Rminus;
  mul := lift2 Rmult;
  div := fun a b => Checked (val a / val b) (obl a ++ obl b ++ [NonZero (val b)]);
  opp := fun a => Checked (- val a) (obl a);
  pw := fun a n => Checked (val a ^ n) (obl a);
  sqrt_ := fun a => Checked (sqrt (val a)) (obl a ++ [NonNeg (val a)])
|}.

(** Every side condition met while building a matrix of checked entries. *)
Definition obligations (M : list (list checked)) : list obligation :=
  flat_map (flat_map obl) M.

Definition well_defined (M : list (list checked)) : Prop :=
  Forall holds (obligations M).

(** ** Dynamics: [f_func], [A_func], [B_func] *)

Section Dynamics.
Context {T : Type} `{Arith T}.
Local Open Scope arith_scope.

(** [f_func(self, x, u)]: the 14x1 array of state rates. *)
Definition f_func (x u : list T) : list (list T) :=
  let m := x.[0] in
  let vx := x.[4] in let vy := x.[5] in let vz := x.[6] in
  let q0 := x.[7] in let q1 := x.[8] in let q2 := x.[9] in let q3 := x.[10] in
  let wx := x.[11] in let wy := x.[12] in let wz := x.[13] in
  let ux := u.[0] in let uy := u.[1] in let uz := u.[2] in
  [ [ - $0.01 * sqrt_ (ux ** 2 + uy ** 2 + uz ** 2) ];
    [ vx ];
    [ vy ];
    [ vz ];
    [ (- $1.0 * m - ux * ($2 * q2 ** 2 + $2 * q3 ** 2 - $1) - $2 * uy
        * (q0 * q3 - q1 * q2) + $2 * uz * (q0 * q2 + q1 * q3)) / m ];
    [ ($2 * ux * (q0 * q3 + q1 * q2) - uy * ($2 * q1 ** 2
        + $2 * q3 ** 2 - $1) - $2 * uz * (q0 * q1 - q2 * q3)) / m ];
    [ (- $2 * ux * (q0 * q2 - q1 * q3) + $2 * uy
        * (q0 * q1 + q2 * q3) - uz * ($2 * q1 ** 2 + $2 * q2 ** 2 - $1)) / m ];
    [ - $0.5 * q1 * wx - $0.5 * q2 * wy - $0.5 * q3 * wz ];
    [ $0.5 * q0 * wx + $0.5 * q2 * wz - $0.5 * q3 * wy ];
    [ $0.5 * q0 * wy - $0.5 * q1 * wz + $0.5 * q3 * wx ];
    [ $0.5 * q0 * wz + $0.5 * q1 * wy - $0.5 * q2 * wx ];
    [ $0 ];
    [ $1.0 * uz ];
    [ - $1.0 * uy ] ].

(** [A_func(self, x, u)]: the 14x14 array. *)
Definition A_func (x u : list T) : list (list T) :=
  let m := x.[0] in
  let q0 := x.[7] in let q1 := x.[8] in let q2 := x.[9] in let q3 := x.[10] in
  let wx := x.[11] in let wy := x.[12] in let wz := x.[13] in
  let ux := u.[0] in let uy := u.[1] in let uz := u.[2] in
  [ [ $0; $0; $0; $0; $0; $0; $0; $0; $0; $0; $0; $0; $0; $0 ];
    [ $0; $0; $0; $0; $1; $0; $0; $0; $0; $0; $0; $0; $0; $0 ];
    [ $0; $0; $0; $0; $0; $1; $0; $0; $0; $0; $0; $0; $0; $0 ];
    [ $0; $0; $0; $0; $0; $0; $1; $0; $0; $0; $0; $0; $0; $0 ];
    [ (ux * ($2 * q2 ** 2 + $2 * q3 ** 2 - $1) + $2 * uy * (q0 * q3 - q1 * q2)
         - $2 * uz * (q0 * q2 + q1 * q3)) / m ** 2;
      $0; $0; $0; $0; $0; $0;
      $2 * (q2 * uz - q3 * uy) / m;
      $2 * (q2 * uy + q3 * uz) / m;
      $2 * (q0 * uz + q1 * uy - $2 * q2 * ux) / m;
      $2 * (- q0 * uy + q1 * uz - $2 * q3 * ux) / m;
      $0; $0; $0 ];
    [ (- $2 * ux * (q0 * q3 + q1 * q2) + uy * ($2 * q1 ** 2 + $2 * q3 ** 2 - $1)
         + $2 * uz * (q0 * q1 - q2 * q3)) / m ** 2;
      $0; $0; $0; $0; $0; $0;
      $2 * (- q1 * uz + q3 * ux) / m;
      $2 * (- q0 * uz - $2 * q1 * uy + q2 * ux) / m;
      $2 * (q1 * ux + q3 * uz) / m;
      $2 * (q0 * ux + q2 * uz - $2 * q3 * uy) / m;
      $0; $0; $0 ];
    [ ($2 * ux * (q0 * q2 - q1 * q3) - $2 * uy * (q0 * q1 + q2 * q3)
         + uz * ($2 * q1 ** 2 + $2 * q2 ** 2 - $1)) / m ** 2;
      $0; $0; $0; $0; $0; $0;
      $2 * (q1 * uy - q2 * ux) / m;
      $2 * (q0 * uy - $2 * q1 * uz + q3 * ux) / m;
      $2 * (- q0 * ux - $2 * q2 * uz + q3 * uy) / m;
      $2 * (q1 * ux + q2 * uy) / m;
      $0; $0; $0 ];
    [ $0; $0; $0; $0; $0; $0; $0; $0; - $0.5 * wx; - $0.5 * wy;
      - $0.5 * wz; - $0.5 * q1; - $0.5 * q2; - $0.5 * q3 ];
    [ $0; $0; $0; $0; $0; $0; $0; $0.5 * wx; $0; $0.5 * wz;
      - $0.5 * wy; $0.5 * q0; - $0.5 * q3; $0.5 * q2 ];
    [ $0; $0; $0; $0; $0; $0; $0; $0.5 * wy; - $0.5 * wz; $0;
      $0.5 * wx; $0.5 * q3; $0.5 * q0; - $0.5 * q1 ];
    [ $0; $0; $0; $0; $0; $0; $0; $0.5 * wz; $0.5 * wy;
      - $0.5 * wx; $0; - $0.5 * q2; $0.5 * q1; $0.5 * q0 ];
    [ $0; $0; $0; $0; $0; $0; $0; $0; $0; $0; $0; $0; $0; $0 ];
    [ $0; $0; $0; $0; $0; $0; $0; $0; $0; $0; $0; $0; $0; $0 ];
    [ $0; $0; $0; $0; $0; $0; $0; $0; $0; $0; $0; $0; $0; $0 ] ].

(** [B_func(self, x, u)]: the 14x3 array. *)
Definition B_func (x u : list T) : list (list T) :=
  let m := x.[0] in
  let q0 := x.[7] in let q1 := x.[8] in let q2 := x.[9] in let q3 := x.[10] in
  let ux := u.[0] in let uy := u.[1] in let uz := u.[2] in
  [ [ - $0.01 * ux / sqrt_ (ux ** 2 + uy ** 2 + uz ** 2);
      - $0.01 * uy / sqrt_ (ux ** 2 + uy ** 2 + uz ** 2);
      - $0.01 * uz / sqrt_ (ux ** 2 + uy ** 2 + uz ** 2) ];
    [ $0; $0; $0 ];
    [ $0; $0; $0 ];
    [ $0; $0; $0 ];
    [ (- $2 * q2 ** 2 - $2 * q3 ** 2 + $1) / m;
      $2 * (- q0 * q3 + q1 * q2) / m;
      $2 * (q0 * q2 + q1 * q3) / m ];
    [ $2 * (q0 * q3 + q1 * q2) / m;
      (- $2 * q1 ** 2 - $2 * q3 ** 2 + $1) / m;
      $2 * (- q0 * q1 + q2 * q3) / m ];
    [ $2 * (- q0 * q2 + q1 * q3) / m;
      $2 * (q0 * q1 + q2 * q3) / m;
      (- $2 * q1 ** 2 - $2 * q2 ** 2 + $1) / m ];
    [ $0; $0; $0 ];
    [ $0; $0; $0 ];
    [ $0; $0; $0 ];
    [ $0; $0; $0 ];
    [ $0; $0; $0 ];
    [ $0; $0; $1.0 ];
    [ $0; - $1.0; $0 ] ].

(** [skew(self, v)]. *)
Definition skew (v : list T) : list (list T) :=
  [ [ $0; - v.[2]; v.[1] ];
    [ v.[2]; $0; - v.[0] ];
    [ - v.[1]; v.[0]; $0 ] ].

(** [dir_cosine(self, q)]. *)
Definition dir_cosine (q : list T) : list (list T) :=
  [ [ $1 - $2 * (q.[2] ** 2 + q.[3] ** 2); $2 * (q.[1] * q.[2]
        + q.[0] * q.[3]); $2 * (q.[1] * q.[3] - q.[0] * q.[2]) ];
    [ $2 * (q.[1] * q.[2] - q.[0] * q.[3]); $1 - $2
        * (q.[1] ** 2 + q.[3] ** 2); $2 * (q.[2] * q.[3] + q.[0] * q.[1]) ];
    [ $2 * (q.[1] * q.[3] + q.[0] * q.[2]); $2 * (q.[2] * q.[3]
        - q.[0] * q.[1]); $1 - $2 * (q.[1] ** 2 + q.[2] ** 2) ] ].

(** [omega(self, w)]. *)
Definition omega (w : list T) : list (list T) :=
  [ [ $0; - w.[0]; - w.[1]; - w.[2] ];
    [ w.[0]; $0; w.[2]; - w.[1] ];
    [ w.[1]; - w.[2]; $0; w.[0] ];
    [ w.[2]; w.[1]; - w.[0]; $0 ] ].

End Dynamics.

Open Scope R_scope.

(** ** NumPy helpers on real vectors and row-major matrices *)

Definition vec := list R.
Definition matrix := list (list R).

(** How a call ends: with a value, or with a Python exception. *)
Inductive exception : Type := ValueError | IndexError | ZeroDivisionError.

Inductive outcome (A : Type) : Type :=
| Returned (a : A)
| Raised (e : exception).
Arguments Raised {A} e.

Definition bind {A B} (c : outcome A) (k : A -> outcome B) : outcome B :=
  match c with
  | Returned a => k a
  | Raised e => Raised e
  end.

Notation "x <- c ;; k" := (bind c (fun x => k))
  (at level 61, c at next level, right associativity).
Notation "' pat <- c ;; k" := (bind c (fun x => match x with pat => k end))
  (at level 61, pat pattern, c at next level, right associativity).

Definition zeros (n : nat) : vec := repeat 0 n.
Definition zeros2 (r c : nat) : matrix := repeat (zeros c) r.

(** [np.eye(n)] and [np.diag(d)]. *)
Definition eye (n : nat) : matrix :=
  map (fun i => map (fun j => if Nat.eqb i j then 1 else 0) (seq 0 n)) (seq 0 n).

Definition diag (d : vec) : matrix :=
  map (fun i => map (fun j => if Nat.eqb i j then nth i d 0 else 0)
                    (seq 0 (length d))) (seq 0 (length d)).

(** [M.reshape(-1)] of a row-major matrix. *)
Definition reshape_flat (M : matrix) : vec := concat M.

Definition scale (a : R) (v : vec) : vec := map (Rmult a) v.
Definition mscale (a : R) (M : matrix) : matrix := map (scale a) M.

(** Elementwise operations on arrays of one shape. *)
Fixpoint zip_with (op : R -> R -> R) (v w : vec) : vec :=
  match v, w with
  | a :: v', b :: w' => op a b :: zip_with op v' w'
  | _, _ => []
  end.

Definition vadd : vec -> vec -> vec := zip_with Rplus.
Definition vsub : vec -> vec -> vec := zip_with Rminus.
Definition vmul : vec -> vec -> vec := zip_with Rmult.

Definition sum (v : vec) : R := fold_right Rplus 0 v.
Definition dot (v w : vec) : R := sum (vmul v w).

(** [np.linalg.norm(v)], the Euclidean norm. *)
Definition norm (v : vec) : R := sqrt (sum (map (fun a => a * a) v)).

(** [a[lo:hi]] on a vector, for [0 <= lo <= hi]. *)
Definition slice (lo hi : nat) (v : vec) : vec := firstn (hi - lo) (skipn lo v).

(** [M.shape[1]] of a matrix with at least one row. *)
Definition ncols (M : matrix) : nat := length (hd [] M).

(** The entries of column [k]. *)
Definition column (k : nat) (M : matrix) : vec := map (fun row => nth k row 0) M.

(** [M[:, k]]: an [IndexError] when [k] is not a column of [M]. *)
Definition col (k : nat) (M : matrix) : outcome vec :=
  if forallb (fun row => Nat.ltb k (length row)) M
  then Returned (column k M) else Raised IndexError.

(** [M.T], for a matrix with [c] columns. *)
Definition transpose (c : nat) (M : matrix) : matrix :=
  map (fun k => column k M) (seq 0 c).

(** [M @ v]. *)
Definition matvec (M : matrix) (v : vec) : vec := map (fun row => dot row v) M.

(** [np.cross(a, b)] is [skew(a) @ b]. *)
Definition cross (a b : vec) : vec := matvec (skew a) b.

(** Replacement of entry [k] of a vector (no effect out of range; the
    callers stay in range). *)
Fixpoint set_item (k : nat) (a : R) (v : vec) : vec :=
  match v, k with
  | [], _ => []
  | _ :: v', O => a :: v'
  | b :: v', S k' => b :: set_item k' a v'
  end.

(** [M[:, k] = v]: needs column [k] and one value per row (a value of
    length one is broadcast). *)
Definition set_col (k : nat) (v : vec) (M : matrix) : outcome matrix :=
  if forallb (fun row => Nat.ltb k (length row)) M then
    if Nat.eqb (length v) (length M)
    then Returned (map (fun rv => set_item k (snd rv) (fst rv)) (combine M v))
    else match v with
         | [a] => Returned (map (set_item k a) M)
         | _ => Raised ValueError
         end
  else Raised IndexError.

(** The buffer with [buf[lo:hi]] replaced by [v]. *)
Definition assign_slice (lo hi : nat) (v : vec) (buf : vec) : vec :=
  firstn lo buf ++ v ++ skipn hi buf.

(** [buf[lo:hi] = v] for [lo <= hi <= len(buf)]: the value must have the
    slice's length, or length one (broadcast); otherwise NumPy raises. *)
Definition set_slice (lo hi : nat) (v : vec) (buf : vec) : outcome vec :=
  if Nat.eqb (length v) (hi - lo)
  then Returned (assign_slice lo hi v buf)
  else match v with
       | [a] => Returned (assign_slice lo hi (repeat a (hi - lo)) buf)
       | _ => Raised ValueError
       end.

Definition deg2rad (d : R) : R := d * (PI / 180).

(** ** The random sampler

    A NumPy [Generator] is read as the sequence of unit-interval samples
    it will produce and a cursor; [rng.uniform(low, high)] is
    [low + (high - low) * s] for the next sample [s] of [[0, 1)]. *)

Record Generator : Type := { tape : nat -> R; cursor : nat }.

Definition valid_rng (g : Generator) : Prop := forall n, 0 <= tape g n < 1.

Definition uniform (low high : R) (g : Generator) : R * Generator :=
  (low + (high - low) * tape g (cursor g),
   {| tape := tape g; cursor := S (cursor g) |}).

(** [rng.uniform(low, high, size=2)]. *)
Definition uniform2 (low high : R) (g : Generator) : vec * Generator :=
  let (a, g1) := uniform low high g in
  let (b, g2) := uniform low high g1 in
  ([a; b], g2).

(** ** [Rocket_Model_6DoF] *)

(** [euler_to_quat(self, a)], [a] in degrees. *)
Definition euler_to_quat (a : vec) : vec :=
  let a := map deg2rad a in
  let cy := cos (nth 1 a 0 * 0.5) in
  let sy := sin (nth 1 a 0 * 0.5) in
  let cr := cos (nth 0 a 0 * 0.5) in
  let sr := sin (nth 0 a 0 * 0.5) in
  let cp := cos (nth 2 a 0 * 0.5) in
  let sp := sin (nth 2 a 0 * 0.5) in
  let q := zeros 4 in
  let q := set_item 0 (cy * cr * cp + sy * sr * sp) q in
  let q := set_item 1 (cy * sr * cp - sy * cr * sp) q in
  let q := set_item 3 (cy * cr * sp + sy * sr * cp) q in
  let q := set_item 2 (sy * cr * cp - cy * sr * sp) q in
  q.

Record Rocket_Model_6DoF : Type := {
  n_x : nat;
  n_u : nat;
  m_wet : R;
  m_dry : R;
  t_f_guess : R;
  r_I_final : vec;
  v_I_final : vec;
  q_B_I_final : vec;
  w_B_final : vec;
  w_B_max : R;
  tan_delta_max : R;
  cos_theta_max : R;
  tan_gamma_gs : R;
  T_max : R;
  T_min : R;
  J_B : matrix;
  g_I : vec;
  alpha_m : R;
  r_T_B : vec;
  r_I_init : vec;
  v_I_init : vec;
  q_B_I_init : vec;
  w_B_init : vec;
  x_init : vec;
  x_final : vec;
  r_scale : R;
  m_scale : R
}.

(** The four attributes written by [set_random_initial_state]. *)
Record initial_state : Type := {
  s_r_I_init : vec;
  s_v_I_init : vec;
  s_q_B_I_init : vec;
  s_w_B_init : vec
}.

(** [set_random_initial_state(self, rng)]; [os_entropy] is the generator
    [np.random.default_rng()] returns when [rng is None]. *)
Definition set_random_initial_state (os_entropy : Generator)
    (rng : option Generator) : initial_state :=
  let rng := match rng with None => os_entropy | Some g => g end in
  let r := [0; 0; 0] in
  let (a, rng) := uniform 3 4 rng in
  let r := set_item 0 a r in
  let (ab, rng) := uniform2 (-2) 2 rng in
  let r := assign_slice 1 3 ab r in
  let v := [0; 0; 0] in
  let (a, rng) := uniform (-1) (-0.5) rng in
  let v := set_item 0 a v in
  let (ab, rng) := uniform2 (-0.5) (-0.2) rng in
  let v := assign_slice 1 3 (vmul ab (slice 1 3 r)) v in
  let (e1, rng) := uniform (-30) 30 rng in
  let (e2, rng) := uniform (-30) 30 rng in
  let q := euler_to_quat [0; e1; e2] in
  let (w1, rng) := uniform (-20) 20 rng in
  let (w2, rng) := uniform (-20) 20 rng in
  let w := map deg2rad [0; w1; w2] in
  {| s_r_I_init := r; s_v_I_init := v; s_q_B_I_init := q; s_w_B_init := w |}.

(** [Rocket_Model_6DoF.__init__(self, rng)]. The body has no [raise] and
    calls nothing that raises. *)
Definition Rocket_Model_6DoF_init (os_entropy : Generator)
    (rng : option Generator) : outcome Rocket_Model_6DoF :=
  let r_I_final := [0; 0; 0] in
  let v_I_final := [-1e-1; 0; 0] in
  let q_B_I_final := euler_to_quat [0; 0; 0] in
  let w_B_final := map deg2rad [0; 0; 0] in
  let max_gimbal := 20 in
  let max_angle := 90 in
  let glidelslope_angle := 20 in
  let s := set_random_initial_state os_entropy rng in
  Returned {|
    n_x := 14;
    n_u := 3;
    m_wet := 3.0;
    m_dry := 2.2;
    t_f_guess := 10.0;
    r_I_final := r_I_final;
    v_I_final := v_I_final;
    q_B_I_final := q_B_I_final;
    w_B_final := w_B_final;
    w_B_max := deg2rad 60;
    tan_delta_max := tan (deg2rad max_gimbal);
    cos_theta_max := cos (deg2rad max_angle);
    tan_gamma_gs := tan (deg2rad glidelslope_angle);
    T_max := 5.0;
    T_min := 0.3;
    J_B := mscale 1e-2 (diag [1; 1; 1]);
    g_I := [-1; 0; 0];
    alpha_m := 0.01;
    r_T_B := [-1e-2; 0; 0];
    r_I_init := s_r_I_init s;
    v_I_init := s_v_I_init s;
    q_B_I_init := s_q_B_I_init s;
    w_B_init := s_w_B_init s;
    x_init := [3.0] ++ s_r_I_init s ++ s_v_I_init s ++ s_q_B_I_init s ++ s_w_B_init s;
    x_final := [2.2] ++ r_I_final ++ v_I_final ++ q_B_I_final ++ w_B_final;
    r_scale := norm (s_r_I_init s);
    m_scale := 3.0
  |}.

(** The object a constructor call leaves, if it returned. *)
Definition constructed (os_entropy : Generator) (rng : option Generator)
    (M : Rocket_Model_6DoF) : Prop :=
  Rocket_Model_6DoF_init os_entropy rng = Returned M.

(** [initialize_trajectory(self, X, U)]: every column of [X] and [U] is
    overwritten, for [k] in [range(K)] with [K = X.shape[1]]. *)
Definition initialize_trajectory (self : Rocket_Model_6DoF) (X U : matrix)
    : outcome (matrix * matrix) :=
  let K := ncols X in
  fold_left
    (fun acc k =>
       '(X, U) <- acc ;;
       let alpha1 := INR (K - k) / INR K in
       let alpha2 := INR k / INR K in
       let m_k := alpha1 * nth 0 (x_init self) 0 + alpha2 * nth 0 (x_final self) 0 in
       let r_I_k := vadd (scale alpha1 (slice 1 4 (x_init self)))
                         (scale alpha2 (slice 1 4 (x_final self))) in
       let v_I_k := vadd (scale alpha1 (slice 4 7 (x_init self)))
                         (scale alpha2 (slice 4 7 (x_final self))) in
       let q_B_I_k := [1; 0; 0; 0] in
       let w_B_k := vadd (scale alpha1 (slice 11 14 (x_init self)))
                         (scale alpha2 (slice 11 14 (x_final self))) in
       X <- set_col k ([m_k] ++ r_I_k ++ v_I_k ++ q_B_I_k ++ w_B_k) X ;;
       U <- set_col k (scale m_k (map Ropp (g_I self))) U ;;
       Returned (X, U))
    (seq 0 K) (Returned (X, U)).

(** ** The convex constraint set

    [get_constraints] builds CVXPY expression trees over the decision
    variables [X_v], [U_v] and the parameters [X_last_p], [U_last_p].
    The trees are kept as syntax; [sat] below gives them their meaning
    on a candidate trajectory. *)

Inductive leaf : Type := X_v | U_v | X_last_p | U_last_p.

(** An index [i] (negative counts from the end) or a slice [lo:hi]
    ([lo:] when [hi] is absent). *)
Inductive index : Type :=
| At (i : Z)
| Span (lo : nat) (hi : option nat).

(** The slice [:]. *)
Definition All : index := Span 0 None.

Inductive array : Type :=
| Scalar (a : R)
| Vector (v : vec)
| Matrix (M : matrix).

#[warnings="-register-all"]
Inductive expr : Type :=
| Leaf (l : leaf)
| Const (c : array)
| Sub2 (e : expr) (r c : index)
| Norm (e : expr) (axis : option nat)
| Div (e d : expr)
| Mul (a e : expr)
| MatMul (a b : expr)
| Vstack (es : list expr).

(** [a == b], [a <= b], [a >= b]. *)
Inductive constraint : Type :=
| Eq (a b : expr)
| Le (a b : expr)
| Ge (a b : expr).

(** [get_constraints(self, X_v, U_v, X_last_p, U_last_p)], for variables
    with [K = X_v.shape[1]] columns. *)
Definition get_constraints (self : Rocket_Model_6DoF) (K : nat) : list constraint :=
  let constraints :=
    [ Eq (Sub2 (Leaf X_v) (At 0) (At 0)) (Const (Scalar (nth 0 (x_init self) 0)));
      Eq (Sub2 (Leaf X_v) (Span 1 (Some 4%nat)) (At 0))
         (Const (Vector (slice 1 4 (x_init self))));
      Eq (Sub2 (Leaf X_v) (Span 4 (Some 7%nat)) (At 0))
         (Const (Vector (slice 4 7 (x_init self))));
      Eq (Sub2 (Leaf X_v) (Span 11 (Some 14%nat)) (At 0))
         (Const (Vector (slice 11 14 (x_init self))));
      Eq (Sub2 (Leaf X_v) (Span 1 None) (At (-1)))
         (Const (Vector (skipn 1 (x_final self))));
      Eq (Sub2 (Leaf U_v) (Span 1 (Some 3%nat)) (At (-1))) (Const (Scalar 0)) ] in
  let constraints := constraints ++
    [ Ge (Sub2 (Leaf X_v) (At 0) All) (Const (Scalar (m_dry self)));
      Le (Norm (Sub2 (Leaf X_v) (Span 2 (Some 4%nat)) All) (Some 0%nat))
         (Div (Sub2 (Leaf X_v) (At 1) All) (Const (Scalar (tan_gamma_gs self))));
      Le (Norm (Sub2 (Leaf X_v) (Span 9 (Some 11%nat)) All) (Some 0%nat))
         (Const (Scalar (sqrt ((1 - cos_theta_max self) / 2))));
      Le (Norm (Sub2 (Leaf X_v) (Span 11 (Some 14%nat)) All) (Some 0%nat))
         (Const (Scalar (w_B_max self)));
      Le (Norm (Sub2 (Leaf U_v) (Span 1 (Some 3%nat)) All) (Some 0%nat))
         (Mul (Const (Scalar (tan_delta_max self))) (Sub2 (Leaf U_v) (At 0) All));
      Le (Norm (Leaf U_v) (Some 0%nat)) (Const (Scalar (T_max self))) ] in
  let rhs :=
    map (fun k =>
           MatMul (Div (Sub2 (Leaf U_last_p) All (At (Z.of_nat k)))
                       (Norm (Sub2 (Leaf U_last_p) All (At (Z.of_nat k))) None))
                  (Sub2 (Leaf U_v) All (At (Z.of_nat k))))
        (seq 0 K) in
  constraints ++ [ Le (Const (Scalar (T_min self))) (Vstack rhs) ].

(** *** Meaning of the trees *)

(** Position of index [i] in an axis of length [n]. *)
Definition resolve (n : nat) (i : Z) : outcome nat :=
  if (0 <=? i)%Z && (i <? Z.of_nat n)%Z then Returned (Z.to_nat i)
  else if (- Z.of_nat n <=? i)%Z && (i <? 0)%Z then Returned (Z.to_nat (Z.of_nat n + i))
  else Raised IndexError.

(** The part [lo:hi] of a list. *)
Definition span {A} (lo : nat) (hi : option nat) (l : list A) : list A :=
  match hi with
  | Some h => firstn (h - lo) (skipn lo l)
  | None => skipn lo l
  end.

(** [M[r, c]]. *)
Definition sub2 (M : matrix) (r c : index) : outcome array :=
  match r, c with
  | At i, At j =>
      i' <- resolve (length M) i ;;
      j' <- resolve (ncols M) j ;;
      Returned (Scalar (nth j' (nth i' M []) 0))
  | At i, Span lo hi =>
      i' <- resolve (length M) i ;;
      Returned (Vector (span lo hi (nth i' M [])))
  | Span lo hi, At j =>
      j' <- resolve (ncols M) j ;;
      Returned (Vector (column j' (span lo hi M)))
  | Span lo hi, Span lo' hi' =>
      Returned (Matrix (map (span lo' hi') (span lo hi M)))
  end.

(** The 2-norm of every column: [norm(M, axis=0)]. *)
Definition col_norms (M : matrix) : vec :=
  map (fun k => norm (column k M)) (seq 0 (ncols M)).

(** [vstack] of scalars: a matrix of one column. *)
Fixpoint stack_rows (vals : list (outcome array)) : outcome matrix :=
  match vals with
  | [] => Returned []
  | v :: vals' =>
      a <- v ;;
      rest <- stack_rows vals' ;;
      match a with
      | Scalar s => Returned ([s] :: rest)
      | _ => Raised ValueError
      end
  end.

(** Value of a tree; only the forms [get_constraints] builds have one. *)
Fixpoint eval (env : leaf -> matrix) (e : expr) : outcome array :=
  match e with
  | Leaf l => Returned (Matrix (env l))
  | Const c => Returned c
  | Sub2 e r c =>
      a <- eval env e ;;
      match a with
      | Matrix M => sub2 M r c
      | _ => Raised IndexError
      end
  | Norm e axis =>
      a <- eval env e ;;
      match a, axis with
      | Vector v, None => Returned (Scalar (norm v))
      | Matrix M, Some O => Returned (Vector (col_norms M))
      | _, _ => Raised ValueError
      end
  | Div e d =>
      a <- eval env e ;;
      b <- eval env d ;;
      match a, b with
      | Scalar x, Scalar y => Returned (Scalar (x / y))
      | Vector v, Scalar y => Returned (Vector (map (fun x => x / y) v))
      | _, _ => Raised ValueError
      end
  | Mul a e =>
      x <- eval env a ;;
      b <- eval env e ;;
      match x, b with
      | Scalar x, Scalar y => Returned (Scalar (x * y))
      | Scalar x, Vector v => Returned (Vector (scale x v))
      | _, _ => Raised ValueError
      end
  | MatMul a b =>
      x <- eval env a ;;
      y <- eval env b ;;
      match x, y with
      | Vector v, Vector w =>
          if Nat.eqb (length v) (length w) then Returned (Scalar (dot v w))
          else Raised ValueError
      | _, _ => Raised ValueError
      end
  | Vstack es =>
      rows <- stack_rows (map (eval env) es) ;;
      Returned (Matrix rows)
  end.

(** Elementwise comparison; a scalar is broadcast. *)
Definition compare (rel : R -> R -> Prop) (a b : array) : Prop :=
  match a, b with
  | Scalar x, Scalar y => rel x y
  | Scalar x, Vector w => Forall (rel x) w
  | Vector v, Scalar y => Forall (fun x => rel x y) v
  | Vector v, Vector w => Forall2 rel v w
  | Scalar x, Matrix N => Forall (Forall (rel x)) N
  | Matrix M, Scalar y => Forall (Forall (fun x => rel x y)) M
  | Matrix M, Matrix N => Forall2 (Forall2 rel) M N
  | _, _ => False
  end.

Definition related (rel : R -> R -> Prop) (env : leaf -> matrix) (a b : expr) : Prop :=
  match eval env a, eval env b with
  | Returned va, Returned vb => compare rel va vb
  | _, _ => False
  end.

(** A candidate [env] satisfies a constraint. *)
Definition sat (env : leaf -> matrix) (c : constraint) : Prop :=
  match c with
  | Eq a b => related eq env a b
  | Le a b => related Rle env a b
  | Ge a b => related Rge env a b
  end.

(** *** Shape of the trees *)

Definition is_variable (l : leaf) : bool :=
  match l with
  | X_v | U_v => true
  | X_last_p | U_last_p => false
  end.

(** The tree mentions a decision variable. *)
Fixpoint mentions_variable (e : expr) : bool :=
  match e with
  | Leaf l => is_variable l
  | Const _ => false
  | Sub2 e _ _ => mentions_variable e
  | Norm e _ => mentions_variable e
  | Div e d => mentions_variable e || mentions_variable d
  | Mul a e => mentions_variable a || mentions_variable e
  | MatMul a b => mentions_variable a || mentions_variable b
  | Vstack es => existsb mentions_variable es
  end.

(** The tree takes the norm of something that mentions a decision
    variable. *)
Fixpoint variable_norm (e : expr) : bool :=
  match e with
  | Leaf _ | Const _ => false
  | Sub2 e _ _ => variable_norm e
  | Norm e _ => mentions_variable e || variable_norm e
  | Div e d => variable_norm e || variable_norm d
  | Mul a e => variable_norm a || variable_norm e
  | MatMul a b => variable_norm a || variable_norm b
  | Vstack es => existsb variable_norm es
  end.

(** The constraint bounds the norm of a decision variable from below
    (or fixes it): the non-convex side of a cone. *)
Definition norm_lower_bound (c : constraint) : bool :=
  match c with
  | Eq a b => variable_norm a || variable_norm b
  | Le a b => variable_norm b
  | Ge a b => variable_norm a
  end.

Definition is_equality (c : constraint) : bool :=
  match c with
  | Eq _ _ => true
  | _ => false
  end.

(** ** [Integrator] *)

(** [M.reshape((r, c))] of a flat vector, row-major. *)
Fixpoint chunks (r c : nat) (v : vec) : matrix :=
  match r with
  | O => []
  | S r' => firstn c v :: chunks r' c (skipn c v)
  end.

Definition reshape (r c : nat) (v : vec) : outcome matrix :=
  if Nat.eqb (length v) (r * c) then Returned (chunks r c v) else Raised ValueError.

(** [M.flatten(order='F')] of a matrix with [c] columns. *)
Definition flatten_F (c : nat) (M : matrix) : vec := concat (transpose c M).

(** [np.matmul(A, B)] for [B] with [c] columns. *)
Definition matmul (A B : matrix) (c : nat) : matrix :=
  map (fun row => map (fun k => dot row (column k B)) (seq 0 c)) A.

Abbreviation model_n_x := n_x (only parsing).
Abbreviation model_n_u := n_u (only parsing).

Module Integrator.

Record t : Type := {
  K : nat;
  m : Rocket_Model_6DoF;
  n_x : nat;
  n_u : nat;
  A_bar : matrix;
  B_bar : matrix;
  C_bar : matrix;
  S_bar : matrix;
  z_bar : matrix;
  x_ind : nat * nat;
  A_bar_ind : nat * nat;
  B_bar_ind : nat * nat;
  C_bar_ind : nat * nat;
  S_bar_ind : nat * nat;
  z_bar_ind : nat * nat;
  f : vec -> vec -> matrix;
  A : vec -> vec -> matrix;
  B : vec -> vec -> matrix;
  V0 : vec;
  dt : R
}.

(** [self.V0[...] = ...] and the writes to the bar buffers. *)
Definition with_V0 (v : vec) (s : t) : t :=
  {| K := K s; m := m s; n_x := n_x s; n_u := n_u s;
     A_bar := A_bar s; B_bar := B_bar s; C_bar := C_bar s;
     S_bar := S_bar s; z_bar := z_bar s;
     x_ind := x_ind s; A_bar_ind := A_bar_ind s; B_bar_ind := B_bar_ind s;
     C_bar_ind := C_bar_ind s; S_bar_ind := S_bar_ind s; z_bar_ind := z_bar_ind s;
     f := f s; A := A s; B := B s; V0 := v; dt := dt s |}.

Definition with_bars (a b c sb z : matrix) (s : t) : t :=
  {| K := K s; m := m s; n_x := n_x s; n_u := n_u s;
     A_bar := a; B_bar := b; C_bar := c; S_bar := sb; z_bar := z;
     x_ind := x_ind s; A_bar_ind := A_bar_ind s; B_bar_ind := B_bar_ind s;
     C_bar_ind := C_bar_ind s; S_bar_ind := S_bar_ind s; z_bar_ind := z_bar_ind s;
     f := f s; A := A s; B := B s; V0 := V0 s; dt := dt s |}.

(** [Integrator.__init__(self, m, K)].  [np.zeros([.., K - 1])] needs
    [K >= 1] and [1. / (K - 1)] needs [K <> 1]. *)
Definition init (m : Rocket_Model_6DoF) (K : nat) : outcome t :=
  match K with
  | O => Raised ValueError
  | S O => Raised ZeroDivisionError
  | _ =>
      let nx := model_n_x m in
      let nu := model_n_u m in
      let x_end := nx in
      let A_bar_end := (nx * (1 + nx))%nat in
      let B_bar_end := (nx * (1 + nx + nu))%nat in
      let C_bar_end := (nx * (1 + nx + nu + nu))%nat in
      let S_bar_end := (nx * (1 + nx + nu + nu + 1))%nat in
      let z_bar_end := (nx * (1 + nx + nu + nu + 2))%nat in
      let V0 := zeros (nx * (1 + nx + nu + nu + 2)) in
      V0 <- set_slice x_end A_bar_end (reshape_flat (eye nx)) V0 ;;
      Returned
        {| K := K; m := m; n_x := nx; n_u := nu;
           A_bar := zeros2 (nx * nx) (K - 1);
           B_bar := zeros2 (nx * nu) (K - 1);
           C_bar := zeros2 (nx * nu) (K - 1);
           S_bar := zeros2 nx (K - 1);
           z_bar := zeros2 nx (K - 1);
           x_ind := (0%nat, x_end);
           A_bar_ind := (x_end, A_bar_end);
           B_bar_ind := (A_bar_end, B_bar_end);
           C_bar_ind := (B_bar_end, C_bar_end);
           S_bar_ind := (C_bar_end, S_bar_end);
           z_bar_ind := (S_bar_end, z_bar_end);
           f := f_func; A := A_func; B := B_func;
           V0 := V0;
           dt := 1 / INR (K - 1) |}
  end.

(** One call of the external integrator: the seed, the time grid and
    the extra arguments [(u_t0, u_t1, sigma)]. *)
Record ode_call : Type := {
  y0 : vec;
  t_grid : R * R;
  args : vec * vec * R
}.

(** [V[ind]]. *)
Definition get (ind : nat * nat) (V : vec) : vec := slice (fst ind) (snd ind) V.

(** Modelled from the spec: the augmented vector field [_ode_dVdt] is
    past the end of the available source.  It is written over a scaled
    time that covers one interval (section 4.2, step 1) while the
    integrator runs over [(0, dt)] (section 6): the scaled time of the
    integrator's time [time] is its fraction of [dt], the weight of the
    interval's end control in the first-order hold (step 2). *)
Definition tau (self : t) (time : R) : R := time / dt self.

Section Discretization.

(** [odeint(self._ode_dVdt, y0, t, args=...)[1, :]]: the external
    integrator applied to the augmented vector field of [self]
    ([_ode_dVdt] lies beyond the end of the available source). *)
Variable odeint : t -> ode_call -> vec.

(** Modelled from the spec: the part of the loop body of
    [calculate_discretization] after the call of the integrator,
    which the available source stops short of (section 4.2, step 4):
    the transition matrix is the integrated Phi, the other blocks
    are multiplied by Phi, and each is stored in column [k] of its
    buffer, matrices flattened in column-major order. *)
Definition recover (self : t) (k : nat) (V : vec) : outcome t :=
  Phi <- reshape (n_x self) (n_x self) (get (A_bar_ind self) V) ;;
  Bk <- reshape (n_x self) (n_u self) (get (B_bar_ind self) V) ;;
  Ck <- reshape (n_x self) (n_u self) (get (C_bar_ind self) V) ;;
  a <- set_col k (flatten_F (n_x self) Phi) (A_bar self) ;;
  b <- set_col k (flatten_F (n_u self) (matmul Phi Bk (n_u self))) (B_bar self) ;;
  c <- set_col k (flatten_F (n_u self) (matmul Phi Ck (n_u self))) (C_bar self) ;;
  sb <- set_col k (matvec Phi (get (S_bar_ind self) V)) (S_bar self) ;;
  z <- set_col k (matvec Phi (get (z_bar_ind self) V)) (z_bar self) ;;
  Returned (with_bars a b c sb z self).

(** The body of the loop for interval [k]; the calls made to the
    integrator are logged next to the object. *)
Definition interval (X U : matrix) (sigma : R) (k : nat)
    (st : t * list ode_call) : outcome (t * list ode_call) :=
  let (self, calls) := st in
  x_k <- col k X ;;
  V0' <- set_slice (fst (x_ind self)) (snd (x_ind self)) x_k (V0 self) ;;
  let self := with_V0 V0' self in
  u_k <- col k U ;;
  u_k1 <- col (k + 1) U ;;
  let call := {| y0 := V0 self; t_grid := (0, dt self); args := (u_k, u_k1, sigma) |} in
  let V := odeint self call in
  self <- recover self k V ;;
  Returned (self, calls ++ [call]).

(** [calculate_discretization(self, X, U, sigma)]: the object after
    the call and the integrator calls it made, in order. *)
Definition calculate_discretization (self : t) (X U : matrix) (sigma : R)
    : outcome (t * list ode_call) :=
  fold_left (fun acc k => st <- acc ;; interval X U sigma k st)
            (seq 0 (K self - 1)) (Returned (self, [])).

(** Successive calls on one object, one per outer iteration. *)
Fixpoint iterate (self : t) (inputs : list (matrix * matrix * R))
    : outcome (t * list (list ode_call)) :=
  match inputs with
  | [] => Returned (self, [])
  | (X, U, sigma) :: rest =>
      '(self, calls) <- calculate_discretization self X U sigma ;;
      '(self, more) <- iterate self rest ;;
      Returned (self, calls :: more)
  end.

End Discretization.

End Integrator.

(** A matrix of [r] rows and [c] columns. *)
Definition shape (r c : nat) (M : matrix) : Prop :=
  length M = r /\ Forall (fun row => length row = c) M.

(** Column [k] of the initial guess for [K] points, as the loop body of
    [initialize_trajectory] computes it, by blocks. *)
Definition guess_column (self : Rocket_Model_6DoF) (K k : nat) : vec :=
  let alpha1 := INR (K - k) / INR K in
  let alpha2 := INR k / INR K in
  [alpha1 * m_wet self + alpha2 * m_dry self]
  ++ vadd (scale alpha1 (r_I_init self)) (scale alpha2 (r_I_final self))
  ++ vadd (scale alpha1 (v_I_init self)) (scale alpha2 (v_I_final self))
  ++ [1; 0; 0; 0]
  ++ vadd (scale alpha1 (w_B_init self)) (scale alpha2 (w_B_final self)).

(** A sampler whose every sample is the middle of its range. *)
Definition centred : Generator := {| tape := fun _ => 0.5; cursor := 0 |}.

(** A candidate trajectory of [K] points for the subproblem: values for
    the variables and the parameters, of the shapes the solver gives
    them. *)
Definition candidate (K : nat) (env : leaf -> matrix) : Prop :=
  shape 14 K (env X_v) /\ shape 3 K (env U_v) /\
  shape 14 K (env X_last_p) /\ shape 3 K (env U_last_p).

(** State and control at point [k], and the previous iterate's control. *)
Definition state (env : leaf -> matrix) (k : nat) : vec := column k (env X_v).
Definition control (env : leaf -> matrix) (k : nat) : vec := column k (env U_v).
Definition previous_control (env : leaf -> matrix) (k : nat) : vec :=
  column k (env U_last_p).

(** The equalities of the subproblem on a candidate: the first state
    but its attitude, the last state but its mass, and the lateral
    components of the last control. *)
Definition boundary_conditions (self : Rocket_Model_6DoF) (K : nat)
    (env : leaf -> matrix) : Prop :=
  nth 0 (state env 0) 0 = m_wet self
  /\ slice 1 4 (state env 0) = r_I_init self
  /\ slice 4 7 (state env 0) = v_I_init self
  /\ slice 11 14 (state env 0) = w_B_init self
  /\ skipn 1 (state env (K - 1)) =
       r_I_final self ++ v_I_final self ++ q_B_I_final self ++ w_B_final self
  /\ nth 1 (control env (K - 1)) 0 = 0
  /\ nth 2 (control env (K - 1)) 0 = 0.

(** Two candidates that differ at most in the attitude of the first
    state (entries 7 to 10) and in the mass of the last state. *)
Definition same_but_free (K : nat) (env env' : leaf -> matrix) : Prop :=
  env U_v = env' U_v
  /\ forall i k,
       ~ (k = 0%nat /\ (7 <= i < 11)%nat) ->
       ~ (k = (K - 1)%nat /\ i = 0%nat) ->
       nth i (state env k) 0 = nth i (state env' k) 0.

(** The constraint at position [n] of a list. *)
Definition nth_constraint (n : nat) (cs : list constraint) : constraint :=
  nth n cs (Eq (Const (Scalar 0)) (Const (Scalar 0))).

(** The value of a call that returned. *)
Definition the {A : Type} (o : outcome A)
    : match o with Returned _ => A | Raised _ => exception end :=
  match o with
  | Returned a => a
  | Raised e => e
  end.

(** The model built with the centred sampler, and a state and a control
    of a flight with it: wet mass, 3.5 above the pad, descending. *)
Definition centred_model : Rocket_Model_6DoF :=
  the (Rocket_Model_6DoF_init centred (Some centred)).

Definition sample_state : vec := [3; 3.5; 0; 0; -0.75; 0; 0; 1; 0; 0; 0; 0; 0; 0].
Definition sample_control : vec := [3; 0; 0].

(** ** Partial derivatives of the vector field *)

(** Entry [(i, j)] of a matrix. *)
Definition entry (i j : nat) (M : matrix) : R := nth j (nth i M []) 0.

(** Component [i] of a 14x1 vector field [F] as a function of entry [j]
    of the state (of the control), everything else held at [(x, u)]. *)
Definition along_x (F : vec -> vec -> matrix) (i j : nat) (x u : vec) : R -> R :=
  fun t => entry i 0 (F (set_item j t x) u).

Definition along_u (F : vec -> vec -> matrix) (i j : nat) (x u : vec) : R -> R :=
  fun t => entry i 0 (F x (set_item j t u)).

(** [J] is the Jacobian of [F] in the state (in the control) at [(x, u)]:
    entry [(i, j)] is the derivative of component [i] in direction [j]. *)
Definition jacobian_x (F : vec -> vec -> matrix) (J : matrix) (x u : vec) : Prop :=
  forall i, (i < 14)%nat -> forall j, (j < 14)%nat ->
    derivable_pt_lim (along_x F i j x u) (nth j x 0) (entry i j J).

Definition jacobian_u (F : vec -> vec -> matrix) (J : matrix) (x u : vec) : Prop :=
  forall i, (i < 14)%nat -> forall j, (j < 3)%nat ->
    derivable_pt_lim (along_u F i j x u) (nth j u 0) (entry i j J).

(** ** The seed of the augmented ODE *)

(** What follows the state block in the seed: the identity for the
    transition matrix, zeros for the two control-influence blocks, the
    duration sensitivity and the defect. *)
Definition seed_tail (nx nu : nat) : vec :=
  reshape_flat (eye nx) ++ zeros (nx * nu) ++ zeros (nx * nu)
  ++ zeros nx ++ zeros nx.

(** The call [c] seeds interval [k] of trajectory [X], for the integrator
    object [s]: dimension, blocks as [s] indexes them, and time grid. *)
Definition seeds (s : Integrator.t) (X : matrix) (k : nat)
    (c : Integrator.ode_call) : Prop :=
  let nx := Integrator.n_x s in
  let nu := Integrator.n_u s in
  let V := Integrator.y0 c in
  length V = (nx * (1 + nx + 2 * nu + 2))%nat
  /\ Integrator.get (Integrator.x_ind s) V = column k X
  /\ Integrator.get (Integrator.A_bar_ind s) V = reshape_flat (eye nx)
  /\ Integrator.get (Integrator.B_bar_ind s) V = zeros (nx * nu)
  /\ Integrator.get (Integrator.C_bar_ind s) V = zeros (nx * nu)
  /\ Integrator.get (Integrator.S_bar_ind s) V = zeros nx
  /\ Integrator.get (Integrator.z_bar_ind s) V = zeros nx
  /\ Integrator.t_grid c = (0, Integrator.dt s).

(** The object is as [__init__] left it for model [m] and [K] points, up
    to the contents of the bar buffers and of the state block of [V0]. *)
Definition initialised (m : Rocket_Model_6DoF) (K : nat) (s : Integrator.t) : Prop :=
  let nx := model_n_x m in
  let nu := model_n_u m in
  Integrator.K s = K /\ Integrator.n_x s = nx /\ Integrator.n_u s = nu
  /\ Integrator.x_ind s = (0%nat, nx)
  /\ Integrator.A_bar_ind s = (nx, (nx * (1 + nx))%nat)
  /\ Integrator.B_bar_ind s = ((nx * (1 + nx))%nat, (nx * (1 + nx + nu))%nat)
  /\ Integrator.C_bar_ind s =
       ((nx * (1 + nx + nu))%nat, (nx * (1 + nx + nu + nu))%nat)
  /\ Integrator.S_bar_ind s =
       ((nx * (1 + nx + nu + nu))%nat, (nx * (1 + nx + nu + nu + 1))%nat)
  /\ Integrator.z_bar_ind s =
       ((nx * (1 + nx + nu + nu + 1))%nat, (nx * (1 + nx + nu + nu + 2))%nat)
  /\ Integrator.dt s = 1 / INR (K - 1)
  /\ shape (nx * nx) (K - 1) (Integrator.A_bar s)
  /\ shape (nx * nu) (K - 1) (Integrator.B_bar s)
  /\ shape (nx * nu) (K - 1) (Integrator.C_bar s)
  /\ shape nx (K - 1) (Integrator.S_bar s)
  /\ shape nx (K - 1) (Integrator.z_bar s)
  /\ exists x, length x = nx /\ Integrator.V0 s = x ++ seed_tail nx nu.

(** The call made for interval [k] of the trajectory [(X, U, sigma)], by
    an object initialised for [m] and [K]. *)
Definition interval_call (m : Rocket_Model_6DoF) (K : nat)
    (X U : matrix) (sigma : R) (k : nat) : Integrator.ode_call :=
  {| Integrator.y0 := column k X ++ seed_tail (model_n_x m) (model_n_u m);
     Integrator.t_grid := (0, 1 / INR (K - 1));
     Integrator.args := (column k U, column (k + 1) U, sigma) |}.

(** The trajectories handed to the discretization have one state and
    one control per point. *)
Definition trajectory (m : Rocket_Model_6DoF) (K : nat)
    (input : matrix * matrix * R) : Prop :=
  let '(X, U, sigma) := input in
  shape (model_n_x m) K X /\ shape (model_n_u m) K U.

(** An integrator that ignores the vector field and returns its seed. *)
Definition odeint_still (s : Integrator.t) (c : Integrator.ode_call) : vec :=
  Integrator.y0 c.

(** ** Vocabulary of the further properties *)

(** A scalar-first quaternion of norm one. *)
Definition unit_quaternion (q : vec) : Prop := length q = 4%nat /\ dot q q = 1.

(** The entrywise opposite of a matrix. *)
Definition mopp (M : matrix) : matrix := map (map Ropp) M.

(** The velocity rows of [f_func] less gravity: the acceleration due to
    thrust. *)
Definition thrust_acceleration (x u : vec) : vec :=
  vsub (slice 4 7 (column 0 (f_func x u))) [-1; 0; 0].

(** The quaternion rows of [f_func]. *)
Definition quaternion_rate (x u : vec) : vec := slice 7 11 (column 0 (f_func x u)).

(** Rows [lo:hi] of a matrix. *)
Definition rows (lo hi : nat) (M : matrix) : matrix := firstn (hi - lo) (skipn lo M).

(** The candidate of the first outer iteration: the arrays of the initial
    guess as variables and as previous iterate. *)
Definition first_iterate (X U : matrix) (l : leaf) : matrix :=
  match l with
  | X_v | X_last_p => X
  | U_v | U_last_p => U
  end.

(** A control array of three rows with entry [a] at row 0 of every one
    of [K] columns, and a state array with 14 rows of [K] zeros. *)
Definition axial_controls (a : R) (K : nat) : matrix :=
  [repeat a K; zeros K; zeros K].

(** * Properties *)

(** ** Tactics *)

(** Decimal literals as quotients of integers, for [field] and [ring]. *)
Ltac lits :=
  unfold Q2R; cbn [Qnum Qden];
  repeat match goal with
  | |- context [Z.pow_pos ?a ?b] =>
      let v := eval compute in (Z.pow_pos a b) in change (Z.pow_pos a b) with v
  end.

(** Unfolds the array operations down to real arithmetic. *)
Ltac arrays :=
  cbv [f_func A_func B_func skew dir_cosine omega item
       lit add sub mul div opp pw sqrt_ R_Arith
       zeros zeros2 eye diag reshape_flat scale mscale zip_with vadd vsub vmul
       sum dot slice column transpose matvec cross set_item assign_slice
       map seq firstn skipn fold_right nth app concat repeat length
       Nat.eqb Nat.sub Nat.add fst snd].

(** Equality of two lists of the same shape, entry by entry. *)
Ltac entrywise :=
  repeat match goal with
  | |- _ :: _ = _ :: _ => apply f_equal2
  | |- @nil _ = @nil _ => reflexivity
  end.

(** ** Shapes *)

Ltac destruct_length H :=
  repeat match type of H with
  | length ?l = S _ =>
      let a := fresh "a" in
      destruct l as [|a l]; [discriminate H|]; simpl in H; apply eq_add_S in H
  | length ?l = O => destruct l; [clear H|discriminate H]
  end.

Lemma length_14 (x : vec) :
  length x = 14%nat ->
  exists m rx ry rz vx vy vz q0 q1 q2 q3 wx wy wz,
    x = [m; rx; ry; rz; vx; vy; vz; q0; q1; q2; q3; wx; wy; wz].
Proof.
  intros H. destruct_length H. repeat eexists.
Qed.

Lemma length_3 (u : vec) :
  length u = 3%nat -> exists ux uy uz, u = [ux; uy; uz].
Proof.
  intros H. destruct_length H. repeat eexists.
Qed.

Ltac name_state x u Hx Hu :=
  destruct (length_14 x Hx) as
    (m & rx & ry & rz & vx & vy & vz & q0 & q1 & q2 & q3 & wx & wy & wz & ->);
  destruct (length_3 u Hu) as (ux & uy & uz & ->).

(** ** The vector field *)

Lemma constructed_constants os rng M :
  constructed os rng M ->
  alpha_m M = 0.01 /\ g_I M = [-1; 0; 0] /\ r_T_B M = [-0.01; 0; 0] /\
  J_B M = mscale 0.01 (eye 3) /\ m_wet M = 3.0 /\ m_dry M = 2.2 /\
  n_x M = 14%nat /\ n_u M = 3%nat.
Proof.
  unfold constructed, Rocket_Model_6DoF_init. intros [= <-]. simpl.
  repeat split; reflexivity.
Qed.

(** C2. With nonzero mass, [f_func] is the 14x1 column made of: the mass
    rate [- alpha_m * |u|]; the velocity; gravity plus the thrust rotated
    by the transposed direction-cosine matrix, over the mass; half of
    [omega(w) @ q]; and [(0, u_z, - u_y)], which is the rigid-body angular
    acceleration for the moment arm [r_T_B] and the inertia [J_B]. *)
Theorem f_func_components os rng M (x u : vec) :
  constructed os rng M ->
  length x = 14%nat -> length u = 3%nat -> nth 0 x 0 <> 0 ->
  let m := nth 0 x 0 in
  let v := slice 4 7 x in
  let q := slice 7 11 x in
  let w := slice 11 14 x in
  let w_dot := [0; nth 2 u 0; - nth 1 u 0] in
  f_func x u =
    map (fun a => [a])
        ([- alpha_m M * norm u] ++ v
         ++ vadd (g_I M) (map (fun a => a / m) (matvec (transpose 3 (dir_cosine q)) u))
         ++ scale 0.5 (matvec (omega w) q)
         ++ w_dot)
  /\ alpha_m M = 0.01
  /\ g_I M = [-1; 0; 0]
  /\ r_T_B M = [-0.01; 0; 0]
  /\ J_B M = mscale 0.01 (eye 3)
  /\ matvec (J_B M) w_dot = vsub (cross (r_T_B M) u) (cross w (matvec (J_B M) w)).
Proof.
  intros HM Hx Hu Hm.
  destruct (constructed_constants HM) as (Ha & Hg & Hr & HJ & _).
  name_state x u Hx Hu. simpl in Hm.
  rewrite Ha, Hg, Hr, HJ.
  split; [|repeat (split; [reflexivity|])].
  - unfold norm. arrays. entrywise; lits;
      first [reflexivity | field; assumption | f_equal; f_equal; ring].
  - arrays. entrywise; lits; field.
Qed.

(** ** The Jacobians *)

Lemma forall_lt (n : nat) (P : nat -> Prop) :
  Forall P (seq 0 n) -> forall i, (i < n)%nat -> P i.
Proof.
  intros H i Hi. rewrite Forall_forall in H. apply H, in_seq. lia.
Qed.

(** Splits a goal [forall i, i < n -> P i], [n] a numeral, into its [n]
    instances. *)
Ltac by_cases_lt :=
  let i := fresh "i" in
  let Hi := fresh "Hi" in
  intros i Hi; pattern i; refine (forall_lt _ Hi); clear i Hi;
  cbv [seq]; repeat apply Forall_cons; try apply Forall_nil.

(** The rules of differentiation, for functions written as lambdas. *)
Section Derivatives.
Variables (f g : R -> R) (x a b : R).

Lemma D_const c : derivable_pt_lim (fun _ => c) x 0.
Proof. apply derivable_pt_lim_const. Qed.

Lemma D_id : derivable_pt_lim (fun t => t) x 1.
Proof. apply derivable_pt_lim_id. Qed.

Hypothesis Hf : derivable_pt_lim f x a.

Lemma D_opp : derivable_pt_lim (fun t => - f t) x (- a).
Proof. apply (derivable_pt_lim_opp f x a Hf). Qed.

Lemma D_sqrt :
  0 < f x -> derivable_pt_lim (fun t => sqrt (f t)) x (/ (2 * sqrt (f x)) * a).
Proof.
  intros H.
  apply (derivable_pt_lim_comp f sqrt x a _ Hf (derivable_pt_lim_sqrt _ H)).
Qed.

Hypothesis Hg : derivable_pt_lim g x b.

Lemma D_plus : derivable_pt_lim (fun t => f t + g t) x (a + b).
Proof. apply (derivable_pt_lim_plus f g x a b Hf Hg). Qed.

Lemma D_minus : derivable_pt_lim (fun t => f t - g t) x (a - b).
Proof. apply (derivable_pt_lim_minus f g x a b Hf Hg). Qed.

Lemma D_mult : derivable_pt_lim (fun t => f t * g t) x (a * g x + f x * b).
Proof. apply (derivable_pt_lim_mult f g x a b Hf Hg). Qed.

Lemma D_div :
  g x <> 0 ->
  derivable_pt_lim (fun t => f t / g t) x ((a * g x - b * f x) / Rsqr (g x)).
Proof. intros H. apply (derivable_pt_lim_div f g x a b Hf Hg H). Qed.

End Derivatives.

Lemma D_value (f : R -> R) (x l l' : R) :
  derivable_pt_lim f x l' -> l' = l -> derivable_pt_lim f x l.
Proof. intros H <-. exact H. Qed.

(** Differentiates a lambda built from [+ - * / sqrt], leaving the side
    conditions of [/] and [sqrt]. *)
Ltac deriv :=
  lazymatch goal with
  | |- derivable_pt_lim (fun _ => ?c) _ _ => apply D_const
  | |- derivable_pt_lim (fun t => t) _ _ => apply D_id
  | |- derivable_pt_lim (fun t => @?f t + @?g t) _ _ => eapply (@D_plus f g); deriv
  | |- derivable_pt_lim (fun t => @?f t - @?g t) _ _ => eapply (@D_minus f g); deriv
  | |- derivable_pt_lim (fun t => @?f t * @?g t) _ _ => eapply (@D_mult f g); deriv
  | |- derivable_pt_lim (fun t => @?f t / @?g t) _ _ =>
      eapply (@D_div f g); [deriv | deriv | cbv beta]
  | |- derivable_pt_lim (fun t => - @?f t) _ _ => eapply (@D_opp f); deriv
  | |- derivable_pt_lim (fun t => sqrt (@?f t)) _ _ =>
      eapply (@D_sqrt f); [deriv | cbv beta]
  end.

Ltac partial_derivative :=
  cbv [along_x along_u entry]; arrays; cbv [pow];
  eapply D_value; [deriv | cbv beta; unfold Rsqr; lits ..].

Lemma sum_squares_pos (ux uy uz : R) :
  [ux; uy; uz] <> zeros 3 ->
  0 < ux * (ux * 1) + uy * (uy * 1) + uz * (uz * 1).
Proof.
  intros H.
  destruct (Req_dec ux 0) as [-> | Hx]; [|nra].
  destruct (Req_dec uy 0) as [-> | Hy]; [|nra].
  destruct (Req_dec uz 0) as [-> | Hz]; [|nra].
  now contradiction H.
Qed.

Lemma A_func_jacobian (x u : vec) :
  length x = 14%nat -> length u = 3%nat -> nth 0 x 0 <> 0 ->
  jacobian_x f_func (A_func x u) x u.
Proof.
  intros Hx Hu Hm. name_state x u Hx Hu. cbv [nth] in Hm.
  unfold jacobian_x. by_cases_lt; by_cases_lt.
  all: partial_derivative; try assumption; field; assumption.
Qed.

Lemma B_func_jacobian (x u : vec) :
  length x = 14%nat -> length u = 3%nat -> nth 0 x 0 <> 0 -> u <> zeros 3 ->
  jacobian_u f_func (B_func x u) x u.
Proof.
  intros Hx Hu Hm Hnz. name_state x u Hx Hu. cbv [nth] in Hm.
  pose proof (sum_squares_pos Hnz) as Hpos.
  assert (Hs : sqrt (ux * (ux * 1) + uy * (uy * 1) + uz * (uz * 1)) <> 0)
    by (apply Rgt_not_eq, sqrt_lt_R0, Hpos).
  unfold jacobian_u. by_cases_lt; by_cases_lt.
  all: partial_derivative; try assumption; field; assumption.
Qed.

(** C1. Where the mass is not zero and the control is not the zero
    vector, [A_func] is the Jacobian of [f_func] in the state and [B_func]
    its Jacobian in the control, entry by entry. *)
Theorem A_B_exact_jacobians (x u : vec) :
  length x = 14%nat -> length u = 3%nat ->
  nth 0 x 0 <> 0 -> u <> zeros 3 ->
  jacobian_x f_func (A_func x u) x u /\ jacobian_u f_func (B_func x u) x u.
Proof.
  intros Hx Hu Hm Hnz. split.
  - now apply A_func_jacobian.
  - now apply B_func_jacobian.
Qed.

(** ** Side conditions of the dynamics *)

(** Unfolds the checked arithmetic down to the log of side conditions. *)
Ltac side_conditions :=
  cbv [well_defined obligations f_func A_func B_func item
       lit add sub mul div opp pw sqrt_ checked_Arith pure lift2 val obl
       map nth app flat_map].

(** The entries computed with the log are the real entries. *)
Lemma checked_values (x u : vec) :
  length x = 14%nat -> length u = 3%nat ->
  map (map val) (f_func (map pure x) (map pure u)) = f_func x u /\
  map (map val) (A_func (map pure x) (map pure u)) = A_func x u /\
  map (map val) (B_func (map pure x) (map pure u)) = B_func x u.
Proof.
  intros Hx Hu. name_state x u Hx Hu. repeat split; reflexivity.
Qed.

Lemma norm_3 (ux uy uz : R) :
  norm [ux; uy; uz] = sqrt (ux ^ 2 + uy ^ 2 + uz ^ 2).
Proof.
  unfold norm. f_equal. simpl. ring.
Qed.

Lemma norm_3_zero (ux uy uz : R) :
  norm [ux; uy; uz] = 0 <-> [ux; uy; uz] = zeros 3.
Proof.
  rewrite norm_3. split.
  - intros H. apply sqrt_eq_0 in H; [|nra].
    assert (ux = 0) by nra. assert (uy = 0) by nra. assert (uz = 0) by nra.
    subst. reflexivity.
  - intros [= -> -> ->]. replace (0 ^ 2 + 0 ^ 2 + 0 ^ 2) with 0 by ring.
    apply sqrt_0.
Qed.

(** C10. Every division in [f_func], [A_func] and [B_func] is by the
    mass, its square or the norm of the control, and every square root is
    of the control's sum of squares; so the three are well defined
    exactly when the mass is not zero and the control is not the zero
    vector.  At the zero control the first row of [B_func] divides by a
    norm that is zero, while [f_func] alone only needs the mass. *)
Theorem dynamics_well_defined_iff (x u : vec) :
  length x = 14%nat -> length u = 3%nat ->
  let m := nth 0 x 0 in
  let fx := f_func (map pure x) (map pure u) in
  let Ax := A_func (map pure x) (map pure u) in
  let Bx := B_func (map pure x) (map pure u) in
  Forall (fun o => match o with
                   | NonZero d => d = m \/ d = m ^ 2 \/ d = norm u
                   | NonNeg r => r = dot u u
                   end)
         (obligations fx ++ obligations Ax ++ obligations Bx)
  /\ (well_defined fx /\ well_defined Ax /\ well_defined Bx
      <-> m <> 0 /\ u <> zeros 3)
  /\ (well_defined fx <-> m <> 0)
  /\ (u = zeros 3 ->
      In (NonZero (norm u)) (flat_map obl (nth 0 Bx [])) /\ norm u = 0).
Proof.
  intros Hx Hu. name_state x u Hx Hu. cbv zeta.
  pose proof (norm_3 ux uy uz) as Hn.
  assert (Hd : ux ^ 2 + uy ^ 2 + uz ^ 2 = dot [ux; uy; uz] [ux; uy; uz])
    by (cbv [dot vmul zip_with sum fold_right]; ring).
  assert (Hnn : 0 <= ux ^ 2 + uy ^ 2 + uz ^ 2) by nra.
  split; [|split; [|split]].
  - side_conditions. repeat apply Forall_cons; try apply Forall_nil; auto.
  - side_conditions. rewrite <- Hn. split.
    + intros (Hf & _ & HB). split.
      * inversion Hf as [|? ? _ Hf1]. inversion Hf1 as [|? ? Hm _]. exact Hm.
      * inversion HB as [|? ? _ HB1]. inversion HB1 as [|? ? Hnz _].
        intros Hz. apply Hnz, norm_3_zero, Hz.
    + intros [Hm Hnz].
      assert (Hm2 : m ^ 2 <> 0) by (apply pow_nonzero, Hm).
      assert (Hnorm : norm [ux; uy; uz] <> 0)
        by (intros Hz; apply Hnz, norm_3_zero, Hz).
      repeat split; repeat apply Forall_cons; try apply Forall_nil;
        simpl; assumption.
  - side_conditions. split.
    + intros Hf. inversion Hf as [|? ? _ Hf1]. inversion Hf1 as [|? ? Hm _]. exact Hm.
    + intros Hm. repeat apply Forall_cons; try apply Forall_nil; simpl; assumption.
  - intros Hz. split.
    + side_conditions. rewrite <- Hn. right. left. reflexivity.
    + apply norm_3_zero, Hz.
Qed.

(** ** Arrays *)

Lemma set_item_length k a v : length (set_item k a v) = length v.
Proof.
  revert k; induction v as [|b v IH]; intros [|k]; simpl; auto.
Qed.

Lemma set_item_same k a v d : (k < length v)%nat -> nth k (set_item k a v) d = a.
Proof.
  revert k; induction v as [|b v IH]; intros [|k] H; simpl in *; try lia; auto.
  apply IH. lia.
Qed.

Lemma set_item_other k j a v d : j <> k -> nth j (set_item k a v) d = nth j v d.
Proof.
  revert k j; induction v as [|b v IH]; intros [|k] [|j] H; simpl; auto.
  contradiction.
Qed.

Lemma shape_columns r c M k :
  shape r c M -> (k < c)%nat ->
  forallb (fun row => Nat.ltb k (length row)) M = true.
Proof.
  intros [_ H] Hk. apply forallb_forall. intros row Hin.
  rewrite Forall_forall in H. rewrite (H row Hin). now apply Nat.ltb_lt.
Qed.

Lemma column_length k M : length (column k M) = length M.
Proof. apply length_map. Qed.

(** Writing column [k] of a well-shaped matrix succeeds, keeps the shape,
    puts the value in column [k] and leaves the other columns. *)
Lemma set_col_spec r c M k v :
  shape r c M -> (k < c)%nat -> length v = r ->
  exists M', set_col k v M = Returned M' /\ shape r c M' /\
             column k M' = v /\
             (forall j, j <> k -> column j M' = column j M).
Proof.
  intros HM Hk Hv. unfold set_col.
  rewrite (shape_columns HM Hk).
  destruct HM as [Hr Hc]. subst r.
  rewrite (proj2 (Nat.eqb_eq _ _) Hv).
  eexists; split; [reflexivity|].
  clear - Hc Hk Hv. revert v Hv.
  induction M as [|row M IH]; intros [|a v] Hv; simpl in *; try discriminate.
  - repeat split; auto.
  - inversion Hc as [|? ? Hrow Hc']; subst.
    destruct (IH Hc' v) as ((Hl & HF) & Hcol & Hoth); [lia|].
    repeat split.
    + simpl. now rewrite Hl.
    + constructor; [apply set_item_length | exact HF].
    + unfold column in *. simpl. rewrite set_item_same by lia. now rewrite Hcol.
    + intros j Hj. unfold column in *. simpl.
      rewrite set_item_other by exact Hj. now rewrite (Hoth j Hj).
Qed.

(** ** The constructed model *)

Lemma constructed_exists os rng : exists M, constructed os rng M.
Proof. eexists. reflexivity. Qed.

(** What [__init__] leaves in the boundary attributes, in terms of the
    ten samples drawn. *)
Lemma constructed_boundary os rng M :
  constructed os rng M ->
  let g := match rng with None => os | Some g => g end in
  let s := fun n => tape g (n + cursor g) in
  r_I_init M = [3 + (4 - 3) * s 0%nat;
                -2 + (2 - -2) * s 1%nat;
                -2 + (2 - -2) * s 2%nat]
  /\ v_I_init M = [-1 + (-0.5 - -1) * s 3%nat;
                   (-0.5 + (-0.2 - -0.5) * s 4%nat) * nth 1 (r_I_init M) 0;
                   (-0.5 + (-0.2 - -0.5) * s 5%nat) * nth 2 (r_I_init M) 0]
  /\ q_B_I_init M = euler_to_quat [0; -30 + (30 - -30) * s 6%nat;
                                      -30 + (30 - -30) * s 7%nat]
  /\ w_B_init M = map deg2rad [0; -20 + (20 - -20) * s 8%nat;
                                  -20 + (20 - -20) * s 9%nat]
  /\ x_init M = [m_wet M] ++ r_I_init M ++ v_I_init M ++ q_B_I_init M ++ w_B_init M
  /\ x_final M = [m_dry M] ++ r_I_final M ++ v_I_final M ++ q_B_I_final M ++ w_B_final M
  /\ r_I_final M = [0; 0; 0]
  /\ v_I_final M = [-0.1; 0; 0]
  /\ q_B_I_final M = euler_to_quat [0; 0; 0]
  /\ w_B_final M = map deg2rad [0; 0; 0].
Proof.
  unfold constructed, Rocket_Model_6DoF_init. intros [= <-].
  repeat split.
Qed.

Lemma constructed_blocks os rng M :
  constructed os rng M ->
  nth 0 (x_init M) 0 = m_wet M /\ nth 0 (x_final M) 0 = m_dry M
  /\ slice 1 4 (x_init M) = r_I_init M /\ slice 1 4 (x_final M) = r_I_final M
  /\ slice 4 7 (x_init M) = v_I_init M /\ slice 4 7 (x_final M) = v_I_final M
  /\ slice 7 11 (x_init M) = q_B_I_init M /\ slice 7 11 (x_final M) = q_B_I_final M
  /\ slice 11 14 (x_init M) = w_B_init M /\ slice 11 14 (x_final M) = w_B_final M
  /\ length (x_init M) = 14%nat /\ length (x_final M) = 14%nat.
Proof.
  unfold constructed, Rocket_Model_6DoF_init. intros [= <-].
  repeat split.
Qed.

Lemma constructed_lengths os rng M :
  constructed os rng M ->
  length (r_I_init M) = 3%nat /\ length (r_I_final M) = 3%nat
  /\ length (v_I_init M) = 3%nat /\ length (v_I_final M) = 3%nat
  /\ length (w_B_init M) = 3%nat /\ length (w_B_final M) = 3%nat
  /\ length (q_B_I_init M) = 4%nat /\ length (q_B_I_final M) = 4%nat.
Proof.
  unfold constructed, Rocket_Model_6DoF_init. intros [= <-].
  repeat split.
Qed.

(** ** The initial guess *)

Lemma zip_with_length op v w :
  length v = length w -> length (zip_with op v w) = length v.
Proof.
  revert w; induction v as [|a v IH]; intros [|b w] H; simpl in *; auto; lia.
Qed.

Lemma blend_length a b v w :
  length v = length w -> length (vadd (scale a v) (scale b w)) = length v.
Proof.
  intros H. unfold vadd, scale.
  rewrite zip_with_length; rewrite !length_map; auto.
Qed.

Lemma guess_column_length os rng M K k :
  constructed os rng M -> length (guess_column M K k) = 14%nat.
Proof.
  intros HM. destruct (constructed_lengths HM) as (H1 & H2 & H3 & H4 & H5 & H6 & _).
  unfold guess_column. cbn [length app].
  rewrite !length_app. cbn [length app].
  rewrite !blend_length by congruence. lia.
Qed.

Lemma ncols_shape r c M : shape (S r) c M -> ncols M = c.
Proof.
  intros [Hl HF]. destruct M as [|row M]; [discriminate|].
  inversion HF; subst. reflexivity.
Qed.

(** The loop of [initialize_trajectory], run over the first [n] columns
    of well-shaped arrays: it returns, and those columns hold the guess. *)
Lemma initialize_trajectory_loop os rng M K X U n :
  constructed os rng M -> shape 14 K X -> shape 3 K U -> (n <= K)%nat ->
  exists X' U',
    fold_left
      (fun acc k =>
         '(X, U) <- acc ;;
         let alpha1 := INR (K - k) / INR K in
         let alpha2 := INR k / INR K in
         let m_k := alpha1 * nth 0 (x_init M) 0 + alpha2 * nth 0 (x_final M) 0 in
         let r_I_k := vadd (scale alpha1 (slice 1 4 (x_init M)))
                           (scale alpha2 (slice 1 4 (x_final M))) in
         let v_I_k := vadd (scale alpha1 (slice 4 7 (x_init M)))
                           (scale alpha2 (slice 4 7 (x_final M))) in
         let q_B_I_k := [1; 0; 0; 0] in
         let w_B_k := vadd (scale alpha1 (slice 11 14 (x_init M)))
                           (scale alpha2 (slice 11 14 (x_final M))) in
         X <- set_col k ([m_k] ++ r_I_k ++ v_I_k ++ q_B_I_k ++ w_B_k) X ;;
         U <- set_col k (scale m_k (map Ropp (g_I M))) U ;;
         Returned (X, U))
      (seq 0 n) (Returned (X, U)) = Returned (X', U')
    /\ shape 14 K X' /\ shape 3 K U'
    /\ forall k, (k < n)%nat ->
         column k X' = guess_column M K k /\
         column k U' = scale (nth 0 (guess_column M K k) 0) (map Ropp (g_I M)).
Proof.
  intros HM HX HU. induction n as [|n IH]; intros Hn.
  - exists X, U. split; [reflexivity|]. split; [exact HX|]. split; [exact HU|].
    intros k Hk. lia.
  - destruct IH as (X1 & U1 & Hfold & HX1 & HU1 & Hcols); [lia|].
    rewrite seq_S, fold_left_app, Hfold. cbn [fold_left bind Nat.add].
    destruct (constructed_blocks HM)
      as (E0 & F0 & E1 & F1 & E2 & F2 & _ & _ & E4 & F4 & _).
    rewrite E0, F0, E1, F1, E2, F2, E4, F4.
    fold (guess_column M K n).
    destruct (@set_col_spec 14 K X1 n (guess_column M K n) HX1)
      as (X2 & -> & HX2 & Hk2 & Ho2); [lia | apply (guess_column_length _ _ HM) |].
    cbn [bind].
    destruct (@set_col_spec 3 K U1 n
                (scale (INR (K - n) / INR K * m_wet M + INR n / INR K * m_dry M)
                       (map Ropp (g_I M))) HU1)
      as (U2 & -> & HU2 & Hu2 & Hou2); [lia | |].
    { destruct (constructed_constants HM) as (_ & -> & _). reflexivity. }
    cbn [bind]. exists X2, U2. repeat split; try apply HX2; try apply HU2.
    + destruct (Nat.eq_dec k n) as [-> | Hne]; [exact Hk2|].
      rewrite (Ho2 k Hne). apply Hcols. lia.
    + destruct (Nat.eq_dec k n) as [-> | Hne]; [exact Hu2|].
      rewrite (Hou2 k Hne). apply Hcols. lia.
Qed.

(** [initialize_trajectory] on a 14xK and a 3xK array returns, and
    column [k] of the new state array is [guess_column]. *)
Lemma initialize_trajectory_columns os rng M K X U :
  constructed os rng M -> shape 14 K X -> shape 3 K U ->
  exists X' U',
    initialize_trajectory M X U = Returned (X', U')
    /\ shape 14 K X' /\ shape 3 K U'
    /\ forall k, (k < K)%nat -> column k X' = guess_column M K k.
Proof.
  intros HM HX HU.
  destruct (@initialize_trajectory_loop os rng M K X U K HM HX HU (le_n K))
    as (X' & U' & Hfold & HX' & HU' & Hcols).
  exists X', U'. unfold initialize_trajectory. rewrite (ncols_shape HX).
  repeat split; try apply HX'; try apply HU'; try exact Hfold.
  intros k Hk. apply Hcols, Hk.
Qed.

Lemma zeros2_shape r c : shape r c (zeros2 r c).
Proof.
  unfold shape, zeros2, zeros. split.
  - apply repeat_length.
  - apply Forall_forall. intros row Hin. apply repeat_spec in Hin. subst.
    apply repeat_length.
Qed.

Lemma blend_start v w :
  length v = length w -> vadd (scale 1 v) (scale 0 w) = v.
Proof.
  unfold vadd, scale.
  revert w; induction v as [|a v IH]; intros [|b w] H; simpl in *;
    try discriminate; auto.
  f_equal; [lra | apply IH; lia].
Qed.

Lemma blend_end v w :
  length v = length w -> vadd (scale 0 v) (scale 1 w) = w.
Proof.
  unfold vadd, scale.
  revert w; induction v as [|a v IH]; intros [|b w] H; simpl in *;
    try discriminate; auto.
  f_equal; [lra | apply IH; lia].
Qed.

Lemma guess_column_first os rng M K :
  constructed os rng M -> (0 < K)%nat ->
  guess_column M K 0 =
    [m_wet M] ++ r_I_init M ++ v_I_init M ++ [1; 0; 0; 0] ++ w_B_init M.
Proof.
  intros HM HK.
  destruct (constructed_lengths HM) as (H1 & H2 & H3 & H4 & H5 & H6 & _).
  unfold guess_column. rewrite Nat.sub_0_r.
  assert (HK' : INR K <> 0) by (apply not_0_INR; lia).
  replace (INR K / INR K) with 1 by (field; exact HK').
  replace (INR 0 / INR K) with 0 by (simpl; field; exact HK').
  rewrite !blend_start by congruence.
  f_equal. f_equal. lra.
Qed.

(** C7 (as the code has it). [initialize_trajectory] returns, and for
    every point [k] of the [K] points the attitude is the identity
    quaternion and mass, position, velocity and angular rate are
    [(K - k)/K] times the initial plus [k/K] times the final boundary
    values.  The first point holds the initial values; the weights reach
    the final values at index [K], one past the last point. *)
Theorem initialize_trajectory_guess os rng M K X U :
  constructed os rng M -> shape 14 K X -> shape 3 K U ->
  exists X' U',
    initialize_trajectory M X U = Returned (X', U')
    /\ (forall k, (k < K)%nat ->
        let alpha1 := INR (K - k) / INR K in
        let alpha2 := INR k / INR K in
        column k X' =
          [alpha1 * m_wet M + alpha2 * m_dry M]
          ++ vadd (scale alpha1 (r_I_init M)) (scale alpha2 (r_I_final M))
          ++ vadd (scale alpha1 (v_I_init M)) (scale alpha2 (v_I_final M))
          ++ [1; 0; 0; 0]
          ++ vadd (scale alpha1 (w_B_init M)) (scale alpha2 (w_B_final M)))
    /\ ((0 < K)%nat ->
        column 0 X' =
          [m_wet M] ++ r_I_init M ++ v_I_init M ++ [1; 0; 0; 0] ++ w_B_init M)
    /\ ((0 < K)%nat ->
        guess_column M K K =
          [m_dry M] ++ r_I_final M ++ v_I_final M ++ [1; 0; 0; 0] ++ w_B_final M).
Proof.
  intros HM HX HU.
  destruct (initialize_trajectory_columns HM HX HU)
    as (X' & U' & Hrun & _ & _ & Hcols).
  exists X', U'. split; [exact Hrun|]. split; [|split].
  - intros k Hk. cbv zeta. rewrite (Hcols k Hk). reflexivity.
  - intros HK. rewrite (Hcols 0%nat HK). apply (guess_column_first HM HK).
  - intros HK.
    destruct (constructed_lengths HM) as (H1 & H2 & H3 & H4 & H5 & H6 & _).
    unfold guess_column. rewrite Nat.sub_diag.
    assert (HK' : INR K <> 0) by (apply not_0_INR; lia).
    replace (INR K / INR K) with 1 by (field; exact HK').
    replace (INR 0 / INR K) with 0 by (simpl; field; exact HK').
    rewrite !blend_end by congruence.
    f_equal. f_equal. lra.
Qed.

(** With the 50 points of the program, the last point of the guess does
    not hold the final mass: it is one step short of it. *)
Lemma initial_guess_last_point_not_final :
  exists M X' U',
    constructed centred (Some centred) M
    /\ initialize_trajectory M (zeros2 14 50) (zeros2 3 50) = Returned (X', U')
    /\ nth 0 (column 49 X') 0 <> nth 0 (x_final M) 0.
Proof.
  destruct (constructed_exists centred (Some centred)) as [M HM]. exists M.
  destruct (initialize_trajectory_columns HM (zeros2_shape 14 50) (zeros2_shape 3 50))
    as (X' & U' & Hrun & _ & _ & Hcols).
  exists X', U'. split; [exact HM|]. split; [exact Hrun|].
  rewrite (Hcols 49%nat) by lia.
  destruct (constructed_blocks HM) as (_ & -> & _).
  destruct (constructed_constants HM) as (_ & _ & _ & _ & Hw & Hd & _).
  unfold guess_column. cbn [nth app]. rewrite Hw, Hd.
  rewrite !INR_IZR_INZ. cbn [Nat.sub Z.of_nat Pos.of_succ_nat Pos.succ].
  lra.
Qed.

(** ** Construction *)

Lemma euler_to_quat_zero : euler_to_quat [0; 0; 0] = [1; 0; 0; 0].
Proof.
  unfold euler_to_quat. cbn [map nth zeros repeat set_item].
  replace (deg2rad 0 * 0.5) with 0 by (unfold deg2rad; lra).
  rewrite cos_0, sin_0. entrywise; ring.
Qed.

Lemma deg2rad_zero : deg2rad 0 = 0.
Proof. unfold deg2rad. lra. Qed.

(** The final boundary state: at rest at the origin, upright, except for
    a descent rate of 0.1 and the scalar part 1 of the quaternion. *)
Lemma constructed_x_final os rng M :
  constructed os rng M ->
  x_final M = [2.2; 0; 0; 0; -0.1; 0; 0; 1; 0; 0; 0; 0; 0; 0].
Proof.
  intros HM.
  destruct (constructed_boundary HM) as (_ & _ & _ & _ & _ & -> & -> & -> & -> & ->).
  destruct (constructed_constants HM) as (_ & _ & _ & _ & _ & -> & _).
  rewrite euler_to_quat_zero. cbn [map app]. rewrite deg2rad_zero. reflexivity.
Qed.

(** The first velocity component is a sample of [[-1, -0.5)]. *)
Lemma constructed_descent_rate os rng M :
  constructed os rng M ->
  valid_rng (match rng with None => os | Some g => g end) ->
  -1 <= nth 0 (v_I_init M) 0 < -0.5.
Proof.
  intros HM Hv.
  destruct (constructed_boundary HM) as (_ & -> & _).
  cbn [nth]. specialize (Hv (3 + cursor match rng with
                                         | Some g => g
                                         | None => os
                                         end)%nat).
  lra.
Qed.

Lemma centred_valid : valid_rng centred.
Proof. intros n. simpl. lra. Qed.

(** With every sample at mid-range: 3.5 above the pad, descending at
    0.75, upright and not rotating. *)
Lemma constructed_centred M :
  constructed centred (Some centred) M ->
  r_I_init M = [3.5; 0; 0] /\ v_I_init M = [-0.75; 0; 0]
  /\ q_B_I_init M = [1; 0; 0; 0] /\ w_B_init M = [0; 0; 0].
Proof.
  intros HM.
  destruct (constructed_boundary HM) as (Hr & Hv & Hq & Hw & _).
  cbn [centred tape cursor] in *.
  assert (Er : r_I_init M = [3.5; 0; 0]) by (rewrite Hr; entrywise; lra).
  rewrite Er in Hv. cbn [nth] in Hv.
  replace (-30 + (30 - -30) * 0.5) with 0 in Hq by lra.
  replace (-20 + (20 - -20) * 0.5) with 0 in Hw by lra.
  rewrite euler_to_quat_zero in Hq. cbn [map] in Hw. rewrite deg2rad_zero in Hw.
  repeat split; try assumption.
  rewrite Hv. entrywise; lra.
Qed.

(** C9 (as the code has it). The model has dry mass 2.2 and wet mass 3.0;
    some sampler outcome starts it at position (3.5, 0, 0) with identity
    attitude and zero angular rate, descending at 0.75; every outcome
    starts with a descent rate in [[-1, -0.5)], never at rest; the final
    state is zero except for the mass 2.2, the descent rate -0.1 and the
    scalar part 1 of the quaternion. *)
Theorem scenario_as_configured :
  (forall os rng M, constructed os rng M -> m_dry M = 2.2 /\ m_wet M = 3.0)
  /\ (exists g M,
        valid_rng g /\ constructed g (Some g) M
        /\ r_I_init M = [3.5; 0; 0] /\ v_I_init M = [-0.75; 0; 0]
        /\ q_B_I_init M = [1; 0; 0; 0] /\ w_B_init M = [0; 0; 0])
  /\ (forall os rng M,
        constructed os rng M ->
        valid_rng (match rng with None => os | Some g => g end) ->
        -1 <= nth 0 (v_I_init M) 0 < -0.5)
  /\ (forall os rng M,
        constructed os rng M ->
        x_final M = [2.2; 0; 0; 0; -0.1; 0; 0; 1; 0; 0; 0; 0; 0; 0]).
Proof.
  split; [|split; [|split]].
  - intros os rng M HM.
    destruct (constructed_constants HM) as (_ & _ & _ & _ & Hw & Hd & _). now split.
  - destruct (constructed_exists centred (Some centred)) as [M HM].
    exists centred, M. split; [apply centred_valid|]. split; [exact HM|].
    apply (constructed_centred HM).
  - intros os rng M HM Hv. apply (constructed_descent_rate HM Hv).
  - intros os rng M HM. apply (constructed_x_final HM).
Qed.

(** No sampler outcome gives the scenario of zero initial velocity, and
    the final state is not zero outside the mass. *)
Lemma scenario_not_realizable :
  ~ (exists os rng M,
        constructed os rng M
        /\ valid_rng (match rng with None => os | Some g => g end)
        /\ r_I_init M = [3.5; 0; 0] /\ v_I_init M = [0; 0; 0]
        /\ q_B_I_init M = [1; 0; 0; 0] /\ w_B_init M = [0; 0; 0]
        /\ forall i, (1 <= i < 14)%nat -> nth i (x_final M) 0 = 0).
Proof.
  intros (os & rng & M & HM & Hv & _ & Hv0 & _).
  pose proof (constructed_descent_rate HM Hv) as H.
  rewrite Hv0 in H. cbn [nth] in H. lra.
Qed.

(** ** Meaning of the constraints *)

Lemma resolve_nat n k : (k < n)%nat -> resolve n (Z.of_nat k) = Returned k.
Proof.
  intros H. unfold resolve.
  replace (0 <=? Z.of_nat k)%Z with true by (symmetry; apply Z.leb_le; lia).
  replace (Z.of_nat k <? Z.of_nat n)%Z with true by (symmetry; apply Z.ltb_lt; lia).
  cbn [andb]. now rewrite Nat2Z.id.
Qed.

Lemma resolve_first n : (0 < n)%nat -> resolve n 0 = Returned 0%nat.
Proof. intros H. apply (@resolve_nat n 0%nat H). Qed.

Lemma resolve_second n : (1 < n)%nat -> resolve n 1 = Returned 1%nat.
Proof. intros H. apply (@resolve_nat n 1%nat H). Qed.

Lemma resolve_last n : (0 < n)%nat -> resolve n (-1) = Returned (n - 1)%nat.
Proof.
  intros H. unfold resolve. cbn [Z.leb Z.compare andb].
  replace (- Z.of_nat n <=? -1)%Z with true by (symmetry; apply Z.leb_le; lia).
  cbn [Z.ltb Z.compare andb]. f_equal. lia.
Qed.

Lemma Forall_map_seq (P : R -> Prop) (f : nat -> R) n :
  Forall P (map f (seq 0 n)) <-> forall k, (k < n)%nat -> P (f k).
Proof.
  rewrite Forall_map, Forall_forall. split.
  - intros H k Hk. apply H, in_seq. lia.
  - intros H k Hk. apply in_seq in Hk. apply H. lia.
Qed.

Lemma Forall_row (P : R -> Prop) (row : vec) :
  Forall P row <-> forall k, (k < length row)%nat -> P (nth k row 0).
Proof.
  split.
  - intros H k Hk. rewrite Forall_forall in H. apply H, nth_In, Hk.
  - intros H. apply Forall_forall. intros a Hin.
    destruct (In_nth _ _ 0 Hin) as (k & Hk & <-). apply H, Hk.
Qed.

Lemma Forall2_map_seq_from (rel : R -> R -> Prop) (f : nat -> R) n s (l : vec) :
  Forall2 rel (map f (seq s n)) l <->
  length l = n /\ forall k, (k < n)%nat -> rel (f (s + k)%nat) (nth k l 0).
Proof.
  revert s l. induction n as [|n IH]; intros s l; cbn [seq map].
  - split.
    + intros H. inversion H. split; [reflexivity | intros k Hk; lia].
    + intros [Hl _]. destruct l; [constructor | discriminate].
  - split.
    + intros H. inversion H as [|? b ? l' Hh Ht]; subst.
      apply IH in Ht. destruct Ht as [Hl Hall]. split; [simpl; lia|].
      intros [|k] Hk; cbn [nth].
      * now rewrite Nat.add_0_r.
      * replace (s + S k)%nat with (S s + k)%nat by lia. apply Hall. lia.
    + intros [Hl Hall]. destruct l as [|b l']; [discriminate|].
      constructor.
      * specialize (Hall 0%nat). rewrite Nat.add_0_r in Hall. apply Hall. lia.
      * apply IH. split; [simpl in Hl; lia|].
        intros k Hk. replace (S s + k)%nat with (s + S k)%nat by lia.
        apply (Hall (S k)). lia.
Qed.

Lemma Forall2_map_seq (rel : R -> R -> Prop) (f : nat -> R) n (l : vec) :
  length l = n ->
  (Forall2 rel (map f (seq 0 n)) l <->
   forall k, (k < n)%nat -> rel (f k) (nth k l 0)).
Proof.
  intros Hl. rewrite Forall2_map_seq_from. cbn [Nat.add]. tauto.
Qed.

(** A matrix of known shape, row by row. *)
Lemma shape_14 K M :
  shape 14 K M ->
  exists x0 x1 x2 x3 x4 x5 x6 x7 x8 x9 x10 x11 x12 x13,
    M = [x0; x1; x2; x3; x4; x5; x6; x7; x8; x9; x10; x11; x12; x13]
    /\ Forall (fun row => length row = K) M.
Proof.
  intros [Hl HF]. destruct_length Hl. repeat eexists. exact HF.
Qed.

Lemma shape_3 K M :
  shape 3 K M ->
  exists u0 u1 u2, M = [u0; u1; u2] /\ Forall (fun row => length row = K) M.
Proof.
  intros [Hl HF]. destruct_length Hl. repeat eexists. exact HF.
Qed.

(** Names the rows of the variables of a candidate and their lengths. *)
Ltac name_rows Hc :=
  let HX := fresh "HX" in let HU := fresh "HU" in
  let HXl := fresh "HXl" in let HUl := fresh "HUl" in
  let EX := fresh "EX" in let EU := fresh "EU" in let EUl := fresh "EUl" in
  let FX := fresh "FX" in let FU := fresh "FU" in let FUl := fresh "FUl" in
  destruct Hc as (HX & HU & HXl & HUl);
  destruct (shape_14 HX)
    as (x0 & x1 & x2 & x3 & x4 & x5 & x6 & x7 & x8 & x9 & x10 & x11 & x12 & x13
        & EX & FX);
  destruct (shape_3 HU) as (u0 & u1 & u2 & EU & FU);
  destruct (shape_3 HUl) as (p0 & p1 & p2 & EUl & FUl);
  rewrite EX in FX; rewrite EU in FU; rewrite EUl in FUl;
  repeat match goal with
  | H : Forall _ (_ :: _) |- _ =>
      let Hh := fresh "L" in let Ht := fresh "F" in
      apply Forall_cons_iff in H; destruct H as [Hh Ht]
  | H : Forall _ [] |- _ => clear H
  end.

(** Evaluates the tree of a constraint on named rows. *)
Ltac evaluate EX EU EUl :=
  unfold sat, related, state, control, previous_control, All;
  cbn [eval bind]; rewrite ?EX, ?EU, ?EUl;
  cbn [sub2 length ncols hd bind].

Lemma Forall2_eq_iff (v w : vec) : Forall2 eq v w <-> v = w.
Proof.
  split.
  - induction 1; congruence.
  - intros ->. induction w; constructor; auto.
Qed.

Section Constraints.
Variables (M : Rocket_Model_6DoF) (K : nat) (env : leaf -> matrix).
Hypothesis HK : (0 < K)%nat.
Hypothesis Hc : candidate K env.

Lemma sat_initial_mass :
  sat env (Eq (Sub2 (Leaf X_v) (At 0) (At 0))
              (Const (Scalar (nth 0 (x_init M) 0))))
  <-> nth 0 (state env 0) 0 = nth 0 (x_init M) 0.
Proof.
  name_rows Hc. evaluate EX EU EUl.
  rewrite L5, (resolve_first HK), (@resolve_first 14) by lia.
  reflexivity.
Qed.

Lemma sat_initial_block lo hi :
  sat env (Eq (Sub2 (Leaf X_v) (Span lo (Some hi)) (At 0))
              (Const (Vector (slice lo hi (x_init M)))))
  <-> slice lo hi (state env 0) = slice lo hi (x_init M).
Proof.
  name_rows Hc. evaluate EX EU EUl.
  rewrite L5, (resolve_first HK). cbn [bind compare].
  rewrite Forall2_eq_iff. unfold column, slice, span.
  now rewrite skipn_map, firstn_map.
Qed.

Lemma sat_final_state :
  sat env (Eq (Sub2 (Leaf X_v) (Span 1 None) (At (-1)))
              (Const (Vector (skipn 1 (x_final M)))))
  <-> skipn 1 (state env (K - 1)) = skipn 1 (x_final M).
Proof.
  name_rows Hc. evaluate EX EU EUl.
  rewrite L5, (resolve_last HK). cbn [bind compare].
  rewrite Forall2_eq_iff. reflexivity.
Qed.

Lemma sat_final_thrust :
  sat env (Eq (Sub2 (Leaf U_v) (Span 1 (Some 3%nat)) (At (-1)))
              (Const (Scalar 0)))
  <-> nth 1 (control env (K - 1)) 0 = 0 /\ nth 2 (control env (K - 1)) 0 = 0.
Proof.
  name_rows Hc. evaluate EX EU EUl.
  rewrite L2, (resolve_last HK). cbn [bind compare].
  cbn [span Nat.sub firstn skipn column map nth].
  split.
  - intros H. inversion H as [|? ? H1 H']; subst.
    inversion H' as [|? ? H2 _]; subst. now split.
  - intros [H1 H2]. repeat constructor; assumption.
Qed.

Lemma sat_mass_floor :
  sat env (Ge (Sub2 (Leaf X_v) (At 0) All) (Const (Scalar (m_dry M))))
  <-> forall k, (k < K)%nat -> nth 0 (state env k) 0 >= m_dry M.
Proof.
  name_rows Hc. evaluate EX EU EUl.
  rewrite (@resolve_first 14) by lia. cbn [bind compare All span skipn nth].
  rewrite Forall_row, L5. reflexivity.
Qed.

Lemma sat_glideslope :
  sat env (Le (Norm (Sub2 (Leaf X_v) (Span 2 (Some 4%nat)) All) (Some 0%nat))
              (Div (Sub2 (Leaf X_v) (At 1) All)
                   (Const (Scalar (tan_gamma_gs M)))))
  <-> forall k, (k < K)%nat ->
        norm (slice 2 4 (state env k)) <= nth 1 (state env k) 0 / tan_gamma_gs M.
Proof.
  name_rows Hc. evaluate EX EU EUl.
  rewrite (@resolve_second 14) by lia.
  cbn [All bind span firstn skipn Nat.sub map compare nth].
  unfold col_norms, ncols. cbn [hd]. rewrite L7.
  rewrite Forall2_map_seq by (rewrite length_map; exact L6).
  split; intros H k Hk; specialize (H k Hk).
  - rewrite (nth_indep _ 0 (0 / tan_gamma_gs M)) in H
      by (rewrite length_map; lia).
    rewrite (map_nth (fun x => x / tan_gamma_gs M)) in H. exact H.
  - rewrite (nth_indep _ 0 (0 / tan_gamma_gs M)) by (rewrite length_map; lia).
    rewrite (map_nth (fun x => x / tan_gamma_gs M)). exact H.
Qed.

Lemma sat_tilt :
  sat env (Le (Norm (Sub2 (Leaf X_v) (Span 9 (Some 11%nat)) All) (Some 0%nat))
              (Const (Scalar (sqrt ((1 - cos_theta_max M) / 2)))))
  <-> forall k, (k < K)%nat ->
        norm (slice 9 11 (state env k)) <= sqrt ((1 - cos_theta_max M) / 2).
Proof.
  name_rows Hc. evaluate EX EU EUl.
  cbn [All bind span firstn skipn Nat.sub map compare].
  unfold col_norms, ncols. cbn [hd]. rewrite L14.
  apply (Forall_map_seq (fun a => a <= sqrt ((1 - cos_theta_max M) / 2))).
Qed.

Lemma sat_angular_rate :
  sat env (Le (Norm (Sub2 (Leaf X_v) (Span 11 (Some 14%nat)) All) (Some 0%nat))
              (Const (Scalar (w_B_max M))))
  <-> forall k, (k < K)%nat -> norm (slice 11 14 (state env k)) <= w_B_max M.
Proof.
  name_rows Hc. evaluate EX EU EUl.
  cbn [All bind span firstn skipn Nat.sub map compare].
  unfold col_norms, ncols. cbn [hd]. rewrite L16.
  apply (Forall_map_seq (fun a => a <= w_B_max M)).
Qed.

Lemma sat_gimbal :
  sat env (Le (Norm (Sub2 (Leaf U_v) (Span 1 (Some 3%nat)) All) (Some 0%nat))
              (Mul (Const (Scalar (tan_delta_max M)))
                   (Sub2 (Leaf U_v) (At 0) All)))
  <-> forall k, (k < K)%nat ->
        norm (slice 1 3 (control env k))
        <= tan_delta_max M * nth 0 (control env k) 0.
Proof.
  name_rows Hc. evaluate EX EU EUl.
  rewrite (@resolve_first 3) by lia.
  cbn [All bind span firstn skipn Nat.sub map compare nth].
  unfold col_norms, scale, ncols. cbn [hd]. rewrite L3.
  rewrite Forall2_map_seq by (rewrite length_map; exact L2).
  split; intros H k Hk; specialize (H k Hk).
  - rewrite (nth_indep _ 0 (tan_delta_max M * 0)) in H
      by (rewrite length_map; lia).
    rewrite (map_nth (Rmult (tan_delta_max M))) in H. exact H.
  - rewrite (nth_indep _ 0 (tan_delta_max M * 0)) by (rewrite length_map; lia).
    rewrite (map_nth (Rmult (tan_delta_max M))). exact H.
Qed.

(** The projection of the control at [k] on the direction of the
    previous iterate's control at [k]. *)
Lemma eval_projection k :
  (k < K)%nat ->
  eval env (MatMul (Div (Sub2 (Leaf U_last_p) All (At (Z.of_nat k)))
                        (Norm (Sub2 (Leaf U_last_p) All (At (Z.of_nat k))) None))
                   (Sub2 (Leaf U_v) All (At (Z.of_nat k))))
  = Returned (Scalar (dot (map (fun a => a / norm (previous_control env k))
                               (previous_control env k))
                          (control env k))).
Proof.
  intros Hk. name_rows Hc. evaluate EX EU EUl.
  rewrite L, L2, !(resolve_nat Hk). cbn [bind span skipn length column map].
  reflexivity.
Qed.

Lemma stack_rows_scalars (s : nat -> R) (ks : list nat) :
  stack_rows (map (fun k => Returned (Scalar (s k))) ks)
  = Returned (map (fun k => [s k]) ks).
Proof.
  induction ks as [|k ks IH]; cbn [map stack_rows bind]; [reflexivity|].
  now rewrite IH.
Qed.

Lemma sat_lower_thrust :
  sat env (Le (Const (Scalar (T_min M)))
              (Vstack
                 (map (fun k =>
                         MatMul (Div (Sub2 (Leaf U_last_p) All (At (Z.of_nat k)))
                                     (Norm (Sub2 (Leaf U_last_p) All
                                                 (At (Z.of_nat k))) None))
                                (Sub2 (Leaf U_v) All (At (Z.of_nat k))))
                      (seq 0 K))))
  <-> forall k, (k < K)%nat ->
        T_min M <= dot (map (fun a => a / norm (previous_control env k))
                            (previous_control env k))
                       (control env k).
Proof.
  unfold sat, related. cbn [eval]. rewrite map_map.
  rewrite (map_ext_in _
             (fun k => Returned (Scalar
                (dot (map (fun a => a / norm (previous_control env k))
                          (previous_control env k))
                     (control env k)))))
    by (intros k Hk; apply eval_projection; apply in_seq in Hk; lia).
  rewrite stack_rows_scalars. cbn [bind compare].
  rewrite Forall_map, Forall_forall. split.
  - intros H k Hk. specialize (H k). rewrite in_seq in H.
    assert (Hin : (0 <= k < 0 + K)%nat) by lia.
    apply H in Hin. inversion Hin; assumption.
  - intros H k Hk. apply in_seq in Hk. constructor; [|constructor].
    apply H. lia.
Qed.

Lemma sat_upper_thrust :
  sat env (Le (Norm (Leaf U_v) (Some 0%nat)) (Const (Scalar (T_max M))))
  <-> forall k, (k < K)%nat -> norm (control env k) <= T_max M.
Proof.
  name_rows Hc. evaluate EX EU EUl. cbn [compare].
  unfold col_norms, ncols. cbn [hd]. rewrite L2.
  apply (Forall_map_seq (fun a => a <= T_max M)).
Qed.

End Constraints.

(** ** The constraint set *)

Lemma get_constraints_length M K : length (get_constraints M K) = 13%nat.
Proof. reflexivity. Qed.

Lemma nth_constraint_In n M K :
  (n < 13)%nat -> In (nth_constraint n (get_constraints M K)) (get_constraints M K).
Proof.
  intros H. apply nth_In. rewrite get_constraints_length. exact H.
Qed.

Lemma constructed_angles os rng M :
  constructed os rng M ->
  tan_gamma_gs M = tan (deg2rad 20) /\ cos_theta_max M = cos (deg2rad 90)
  /\ tan_delta_max M = tan (deg2rad 20) /\ w_B_max M = deg2rad 60
  /\ T_max M = 5.0 /\ T_min M = 0.3.
Proof.
  unfold constructed, Rocket_Model_6DoF_init. intros [= <-].
  repeat split.
Qed.

(** C6. At every point of the trajectory the constraint set holds the
    mass at or above the dry mass, the lateral position inside the
    glideslope cone, quaternion components 2 and 3 inside the tilt bound,
    the angular rate inside its bound and the lateral thrust inside the
    gimbal cone. State layout: mass 0, position 1-3, velocity 4-6,
    quaternion 7-10, angular rate 11-13. *)
Theorem path_constraints os rng M K :
  constructed os rng M -> (0 < K)%nat ->
  (exists c_mass c_glide c_tilt c_rate c_gimbal,
     incl [c_mass; c_glide; c_tilt; c_rate; c_gimbal] (get_constraints M K)
     /\ forall env, candidate K env ->
          (sat env c_mass <->
             forall k, (k < K)%nat -> nth 0 (state env k) 0 >= m_dry M)
          /\ (sat env c_glide <->
             forall k, (k < K)%nat ->
               norm (slice 2 4 (state env k))
               <= nth 1 (state env k) 0 / tan_gamma_gs M)
          /\ (sat env c_tilt <->
             forall k, (k < K)%nat ->
               norm (slice 9 11 (state env k))
               <= sqrt ((1 - cos_theta_max M) / 2))
          /\ (sat env c_rate <->
             forall k, (k < K)%nat ->
               norm (slice 11 14 (state env k)) <= w_B_max M)
          /\ (sat env c_gimbal <->
             forall k, (k < K)%nat ->
               norm (slice 1 3 (control env k))
               <= tan_delta_max M * nth 0 (control env k) 0))
  /\ tan_gamma_gs M = tan (deg2rad 20) /\ cos_theta_max M = cos (deg2rad 90)
  /\ tan_delta_max M = tan (deg2rad 20) /\ w_B_max M = deg2rad 60
  /\ m_dry M = 2.2.
Proof.
  intros HM HK. split.
  - exists (nth_constraint 6 (get_constraints M K)),
           (nth_constraint 7 (get_constraints M K)),
           (nth_constraint 8 (get_constraints M K)),
           (nth_constraint 9 (get_constraints M K)),
           (nth_constraint 10 (get_constraints M K)).
    split.
    + intros c Hin. cbn [In] in Hin.
      repeat destruct Hin as [<- | Hin]; try contradiction;
        apply nth_constraint_In; lia.
    + intros env Hc. cbn [nth_constraint nth get_constraints app].
      split; [now apply sat_mass_floor|].
      split; [now apply sat_glideslope|].
      split; [now apply sat_tilt|].
      split; [now apply sat_angular_rate|].
      now apply sat_gimbal.
  - destruct (constructed_angles HM) as (H1 & H2 & H3 & H4 & _).
    destruct (constructed_constants HM) as (_ & _ & _ & _ & _ & H5 & _).
    repeat split; assumption.
Qed.

Lemma projections_take_no_variable_norm (ks : list nat) :
  existsb variable_norm
    (map (fun k =>
            MatMul (Div (Sub2 (Leaf U_last_p) All (At (Z.of_nat k)))
                        (Norm (Sub2 (Leaf U_last_p) All (At (Z.of_nat k))) None))
                   (Sub2 (Leaf U_v) All (At (Z.of_nat k))))
         ks) = false.
Proof.
  induction ks as [|k ks IH]; [reflexivity|].
  cbn [map existsb]. rewrite IH. reflexivity.
Qed.

Lemma no_norm_lower_bound M K :
  forallb (fun c => negb (norm_lower_bound c)) (get_constraints M K) = true.
Proof.
  unfold get_constraints. cbn [app forallb norm_lower_bound variable_norm
                               mentions_variable is_variable orb negb andb].
  now rewrite projections_take_no_variable_norm.
Qed.

(** C4. The constraint set has the cone [|u_k| <= T_max] at every step
    [k]; for the minimum thrust it has the projection of [u_k] on the
    direction of the previous iterate's control at [k], at least
    [T_min]; and none of its constraints bounds the norm of a decision
    variable from below, as the exact [|u_k| >= T_min] would. *)
Theorem thrust_magnitude_constraints os rng M K :
  constructed os rng M -> (0 < K)%nat ->
  (exists c_max c_min,
     incl [c_max; c_min] (get_constraints M K)
     /\ forall env, candidate K env ->
          (sat env c_max <->
             forall k, (k < K)%nat -> norm (control env k) <= T_max M)
          /\ (sat env c_min <->
             forall k, (k < K)%nat ->
               T_min M <= dot (map (fun a => a / norm (previous_control env k))
                                   (previous_control env k))
                              (control env k)))
  /\ forallb (fun c => negb (norm_lower_bound c)) (get_constraints M K) = true
  /\ (forall k t,
        norm_lower_bound
          (Ge (Norm (Sub2 (Leaf U_v) All (At k)) None) (Const (Scalar t))) = true)
  /\ T_max M = 5.0 /\ T_min M = 0.3.
Proof.
  intros HM HK. split; [|split; [|split]].
  - exists (nth_constraint 11 (get_constraints M K)),
           (nth_constraint 12 (get_constraints M K)).
    split.
    + intros c Hin. cbn [In] in Hin.
      repeat destruct Hin as [<- | Hin]; try contradiction;
        apply nth_constraint_In; lia.
    + intros env Hc. cbn [nth_constraint nth get_constraints app].
      split; [now apply sat_upper_thrust | now apply sat_lower_thrust].
  - apply no_norm_lower_bound.
  - reflexivity.
  - destruct (constructed_angles HM) as (_ & _ & _ & _ & H5 & H6). now split.
Qed.

Lemma slice_ext lo hi (s s' : vec) :
  length s = length s' ->
  (forall i, (lo <= i < hi)%nat -> nth i s 0 = nth i s' 0) ->
  slice lo hi s = slice lo hi s'.
Proof.
  intros Hl H. unfold slice. apply (@nth_ext _ _ _ 0 0).
  - rewrite !length_firstn, !length_skipn. lia.
  - intros n Hn. rewrite length_firstn, length_skipn in Hn.
    rewrite !nth_firstn. destruct (Nat.ltb_spec n (hi - lo)); [|reflexivity].
    rewrite !nth_skipn. apply H. lia.
Qed.

Lemma skipn_ext lo (s s' : vec) :
  length s = length s' ->
  (forall i, (lo <= i)%nat -> nth i s 0 = nth i s' 0) ->
  skipn lo s = skipn lo s'.
Proof.
  intros Hl H. apply (@nth_ext _ _ _ 0 0).
  - rewrite !length_skipn. lia.
  - intros n Hn. rewrite !nth_skipn. apply H. lia.
Qed.

Lemma state_length K env k : candidate K env -> length (state env k) = 14%nat.
Proof.
  intros ((Hl & _) & _). unfold state. now rewrite column_length.
Qed.

(** What the equalities of the set say on a candidate. *)
Lemma equalities_meaning os rng M K env :
  constructed os rng M -> (0 < K)%nat -> candidate K env ->
  (Forall (sat env) (filter is_equality (get_constraints M K))
   <-> boundary_conditions M K env).
Proof.
  intros HM HK Hc. unfold get_constraints, boundary_conditions.
  cbn [app filter is_equality].
  rewrite !Forall_cons_iff, Forall_nil_iff.
  rewrite (sat_initial_mass M HK Hc), !(sat_initial_block M HK Hc),
    (sat_final_state M HK Hc), (sat_final_thrust HK Hc).
  destruct (constructed_blocks HM)
    as (-> & _ & -> & _ & -> & _ & _ & _ & -> & _).
  destruct (constructed_boundary HM) as (_ & _ & _ & _ & _ & -> & _).
  cbn [app skipn]. tauto.
Qed.

(** C5. The equalities of the constraint set are its first six
    constraints. On a candidate they fix the first state's mass,
    position, velocity and angular rate to the initial values, the last
    state's position, velocity, attitude and angular rate to the final
    values, and the last control's two lateral components to zero.
    Whether they hold does not depend on the first state's attitude nor
    on the last state's mass. *)
Theorem boundary_constraints os rng M K :
  constructed os rng M -> (0 < K)%nat ->
  filter is_equality (get_constraints M K) = firstn 6 (get_constraints M K)
  /\ (forall env, candidate K env ->
        (Forall (sat env) (filter is_equality (get_constraints M K))
         <-> boundary_conditions M K env))
  /\ (forall env env',
        (2 <= K)%nat -> candidate K env -> candidate K env' ->
        same_but_free K env env' ->
        (Forall (sat env) (filter is_equality (get_constraints M K))
         <-> Forall (sat env') (filter is_equality (get_constraints M K)))).
Proof.
  intros HM HK. split; [reflexivity|]. split.
  - intros env Hc. apply (equalities_meaning HM HK Hc).
  - intros env env' HK2 Hc Hc' [HU Hfree].
    rewrite (equalities_meaning HM HK Hc), (equalities_meaning HM HK Hc').
    unfold boundary_conditions, control. rewrite HU.
    pose proof (fun k => state_length k Hc) as Hl.
    pose proof (fun k => state_length k Hc') as Hl'.
    rewrite (Hfree 0%nat 0%nat) by lia.
    rewrite (@slice_ext 1 4 (state env 0) (state env' 0))
      by (rewrite ?Hl, ?Hl'; auto; intros i Hi; apply Hfree; lia).
    rewrite (@slice_ext 4 7 (state env 0) (state env' 0))
      by (rewrite ?Hl, ?Hl'; auto; intros i Hi; apply Hfree; lia).
    rewrite (@slice_ext 11 14 (state env 0) (state env' 0))
      by (rewrite ?Hl, ?Hl'; auto; intros i Hi; apply Hfree; lia).
    rewrite (@skipn_ext 1 (state env (K - 1)) (state env' (K - 1)))
      by (rewrite ?Hl, ?Hl'; auto; intros i Hi; apply Hfree; lia).
    reflexivity.
Qed.

(** ** The integrator's seed *)

Lemma zeros_length n : length (zeros n) = n.
Proof. apply repeat_length. Qed.

Lemma zeros_app a b : zeros (a + b) = zeros a ++ zeros b.
Proof. apply repeat_app. Qed.

Lemma firstn_zeros a n : (a <= n)%nat -> firstn a (zeros n) = zeros a.
Proof.
  intros H. replace n with (a + (n - a))%nat by lia.
  rewrite zeros_app, firstn_app, zeros_length, Nat.sub_diag, firstn_O, app_nil_r.
  rewrite <- (zeros_length a) at 1. apply firstn_all.
Qed.

Lemma skipn_zeros a n : skipn a (zeros n) = zeros (n - a).
Proof.
  destruct (Nat.le_gt_cases a n) as [H | H].
  - replace n with (a + (n - a))%nat at 1 by lia.
    rewrite zeros_app, skipn_app, zeros_length, Nat.sub_diag.
    rewrite skipn_all2 by (rewrite zeros_length; lia). reflexivity.
  - rewrite skipn_all2 by (rewrite zeros_length; lia).
    replace (n - a)%nat with 0%nat by lia. reflexivity.
Qed.

Lemma table_flat_length (g : nat -> nat -> R) (rows cols : list nat) :
  length (concat (map (fun i => map (g i) cols) rows))
  = (length rows * length cols)%nat.
Proof.
  induction rows as [|i rows IH]; cbn [map concat length]; [reflexivity|].
  rewrite length_app, length_map, IH. lia.
Qed.

Lemma eye_flat_length n : length (reshape_flat (eye n)) = (n * n)%nat.
Proof.
  unfold reshape_flat, eye.
  rewrite (table_flat_length (fun i j => if Nat.eqb i j then 1 else 0)).
  now rewrite length_seq.
Qed.

Lemma seed_tail_length nx nu :
  length (seed_tail nx nu) = (nx * nx + nx * nu + nx * nu + nx + nx)%nat.
Proof.
  unfold seed_tail. rewrite !length_app, eye_flat_length, !zeros_length. lia.
Qed.

(** The block between positions [a] and [b] of a vector. *)
Lemma get_block (a b : nat) (pre blk post : vec) :
  length pre = a -> (a + length blk = b)%nat ->
  Integrator.get (a, b) (pre ++ blk ++ post) = blk.
Proof.
  intros Ha Hb. unfold Integrator.get, slice. cbn [fst snd].
  rewrite skipn_app, skipn_all2 by lia.
  replace (a - length pre)%nat with 0%nat by lia. cbn [skipn app].
  rewrite firstn_app. replace (b - a)%nat with (length blk) by lia.
  now rewrite firstn_all, Nat.sub_diag, firstn_O, app_nil_r.
Qed.

(** A vector made of a state block and the seed tail is a seed. *)
Lemma seed_blocks (nx nu : nat) (x : vec) :
  length x = nx ->
  let V := x ++ seed_tail nx nu in
  length V = (nx * (1 + nx + 2 * nu + 2))%nat
  /\ Integrator.get (0%nat, nx) V = x
  /\ Integrator.get (nx, (nx * (1 + nx))%nat) V = reshape_flat (eye nx)
  /\ Integrator.get ((nx * (1 + nx))%nat, (nx * (1 + nx + nu))%nat) V
       = zeros (nx * nu)
  /\ Integrator.get ((nx * (1 + nx + nu))%nat, (nx * (1 + nx + nu + nu))%nat) V
       = zeros (nx * nu)
  /\ Integrator.get ((nx * (1 + nx + nu + nu))%nat,
                     (nx * (1 + nx + nu + nu + 1))%nat) V = zeros nx
  /\ Integrator.get ((nx * (1 + nx + nu + nu + 1))%nat,
                     (nx * (1 + nx + nu + nu + 2))%nat) V = zeros nx.
Proof.
  intros Hx. cbv zeta. unfold seed_tail.
  pose proof (eye_flat_length nx) as He.
  set (E := reshape_flat (eye nx)) in *.
  set (Zb := zeros (nx * nu)). set (Zs := zeros nx).
  assert (Hb : length Zb = (nx * nu)%nat) by apply zeros_length.
  assert (Hs : length Zs = nx) by apply zeros_length.
  split; [rewrite !length_app; lia|].
  split; [apply (@get_block 0 nx [] x); [reflexivity | simpl; lia]|].
  split; [apply (@get_block nx _ x E); lia|].
  split.
  { replace (x ++ E ++ Zb ++ Zb ++ Zs ++ Zs)
      with ((x ++ E) ++ Zb ++ (Zb ++ Zs ++ Zs)) by now rewrite <- !app_assoc.
    apply get_block; rewrite ?length_app; lia. }
  split.
  { replace (x ++ E ++ Zb ++ Zb ++ Zs ++ Zs)
      with ((x ++ E ++ Zb) ++ Zb ++ (Zs ++ Zs)) by now rewrite <- !app_assoc.
    apply get_block; rewrite ?length_app; lia. }
  split.
  { replace (x ++ E ++ Zb ++ Zb ++ Zs ++ Zs)
      with ((x ++ E ++ Zb ++ Zb) ++ Zs ++ Zs) by now rewrite <- !app_assoc.
    apply get_block; rewrite ?length_app; lia. }
  replace (x ++ E ++ Zb ++ Zb ++ Zs ++ Zs)
    with ((x ++ E ++ Zb ++ Zb ++ Zs) ++ Zs ++ []) 
    by now rewrite <- !app_assoc, app_nil_r.
  apply get_block; rewrite ?length_app; lia.
Qed.

Lemma init_initialised m K :
  (2 <= K)%nat ->
  exists s, Integrator.init m K = Returned s /\ initialised m K s.
Proof.
  intros HK. destruct K as [|[|K']]; try lia.
  set (K := S (S K')). unfold Integrator.init. fold K.
  set (nx := n_x m). set (nu := n_u m).
  unfold set_slice. rewrite eye_flat_length.
  replace (nx * (1 + nx) - nx)%nat with (nx * nx)%nat by lia.
  rewrite Nat.eqb_refl. cbn [bind].
  eexists. split; [reflexivity|].
  unfold initialised. cbn -[INR Nat.mul Nat.add Nat.sub zeros2 zeros seed_tail K].
  fold nx nu.
  repeat (split; [first [reflexivity | apply zeros2_shape]|]).
  exists (zeros nx). split; [apply zeros_length|].
  unfold assign_slice. rewrite firstn_zeros, skipn_zeros by lia.
  unfold seed_tail. rewrite <- !zeros_app. do 3 f_equal. lia.
Qed.

Lemma chunks_length r c v : length (chunks r c v) = r.
Proof.
  revert v. induction r as [|r IH]; intros v; cbn [chunks length]; auto.
Qed.

Lemma get_length a b (V : vec) :
  (b <= length V)%nat -> length (Integrator.get (a, b) V) = (b - a)%nat.
Proof.
  intros H. unfold Integrator.get, slice. cbn [fst snd].
  rewrite length_firstn, length_skipn. lia.
Qed.

Lemma flatten_F_length c (M : matrix) :
  length (flatten_F c M) = (c * length M)%nat.
Proof.
  unfold flatten_F, transpose.
  assert (H : forall ks, length (concat (map (fun k => column k M) ks))
                         = (length ks * length M)%nat).
  { induction ks as [|k ks IH]; cbn [map concat length]; [reflexivity|].
    rewrite length_app, column_length, IH. lia. }
  now rewrite H, length_seq.
Qed.

Lemma reshape_returns r c v :
  length v = (r * c)%nat -> reshape r c v = Returned (chunks r c v).
Proof.
  intros H. unfold reshape. now rewrite (proj2 (Nat.eqb_eq _ _) H).
Qed.

(** The bar buffers take column [k] of a full-length integrated vector
    and the seed buffer is not touched. *)
Lemma recover_spec m K s k V :
  initialised m K s -> (k < K - 1)%nat ->
  length V = (n_x m * (1 + n_x m + 2 * n_u m + 2))%nat ->
  exists s', Integrator.recover s k V = Returned s'
             /\ initialised m K s'
             /\ Integrator.V0 s' = Integrator.V0 s.
Proof.
  intros Hs Hk HV. unfold initialised in Hs. cbv zeta in Hs.
  destruct Hs as (EK & Ex & Eu & Ix & IA & IB & IC & IS & Iz & Edt
                  & SA & SB & SC & SS & Sz & HV0).
  unfold Integrator.recover. rewrite Ex, Eu, IA, IB, IC, IS, Iz.
  set (nx := n_x m) in *. set (nu := n_u m) in *.
  rewrite !reshape_returns by (rewrite get_length; lia).
  cbn [bind].
  set (Phi := chunks nx nx _).
  assert (HPhi : length Phi = nx) by apply chunks_length.
  destruct (@set_col_spec (nx * nx) (K - 1) (Integrator.A_bar s) k
              (flatten_F nx Phi) SA Hk)
    as (a & -> & Sa & _); [rewrite flatten_F_length, HPhi; lia|].
  cbn [bind].
  destruct (@set_col_spec (nx * nu) (K - 1) (Integrator.B_bar s) k
              (flatten_F nu (matmul Phi (chunks nx nu
                 (Integrator.get ((nx * (1 + nx))%nat, (nx * (1 + nx + nu))%nat) V))
                 nu)) SB Hk)
    as (b & -> & Sb & _);
    [rewrite flatten_F_length; unfold matmul; rewrite length_map;
     unfold vec, matrix in *; rewrite HPhi; lia|].
  cbn [bind].
  destruct (@set_col_spec (nx * nu) (K - 1) (Integrator.C_bar s) k
              (flatten_F nu (matmul Phi (chunks nx nu
                 (Integrator.get ((nx * (1 + nx + nu))%nat,
                                  (nx * (1 + nx + nu + nu))%nat) V))
                 nu)) SC Hk)
    as (c & -> & Sc & _);
    [rewrite flatten_F_length; unfold matmul; rewrite length_map;
     unfold vec, matrix in *; rewrite HPhi; lia|].
  cbn [bind].
  destruct (@set_col_spec nx (K - 1) (Integrator.S_bar s) k
              (matvec Phi (Integrator.get ((nx * (1 + nx + nu + nu))%nat,
                                           (nx * (1 + nx + nu + nu + 1))%nat) V))
              SS Hk)
    as (sb & -> & Ssb & _); [unfold matvec; rewrite length_map; unfold vec, matrix in *; rewrite HPhi; lia|].
  cbn [bind].
  destruct (@set_col_spec nx (K - 1) (Integrator.z_bar s) k
              (matvec Phi (Integrator.get ((nx * (1 + nx + nu + nu + 1))%nat,
                                           (nx * (1 + nx + nu + nu + 2))%nat) V))
              Sz Hk)
    as (z & -> & Szb & _); [unfold matvec; rewrite length_map; unfold vec, matrix in *; rewrite HPhi; lia|].
  cbn [bind].
  eexists. split; [reflexivity|]. split; [|reflexivity].
  unfold initialised. cbv zeta.
  cbn [Integrator.with_bars Integrator.K Integrator.n_x Integrator.n_u
       Integrator.x_ind Integrator.A_bar_ind Integrator.B_bar_ind
       Integrator.C_bar_ind Integrator.S_bar_ind Integrator.z_bar_ind
       Integrator.dt Integrator.A_bar Integrator.B_bar Integrator.C_bar
       Integrator.S_bar Integrator.z_bar Integrator.V0].
  fold nx nu. repeat (split; [assumption|]). exact HV0.
Qed.

Section Seeding.
Variable odeint : Integrator.t -> Integrator.ode_call -> vec.
Hypothesis odeint_length :
  forall s c, length (odeint s c) = length (Integrator.y0 c).
Variables (m : Rocket_Model_6DoF) (K : nat).

Lemma col_returns r c (A : matrix) k :
  shape r c A -> (k < c)%nat -> col k A = Returned (column k A).
Proof.
  intros HA Hk. unfold col. now rewrite (shape_columns HA Hk).
Qed.

(** One pass of the loop body: it returns, logs [interval_call] and
    leaves the object initialised. *)
Lemma interval_spec s X U sigma k calls :
  initialised m K s -> trajectory m K (X, U, sigma) -> (k < K - 1)%nat ->
  exists s',
    Integrator.interval odeint X U sigma k (s, calls)
    = Returned (s', calls ++ [interval_call m K X U sigma k])
    /\ initialised m K s'.
Proof.
  intros Hs [HX HU] Hk.
  pose proof Hs as Hs0. unfold initialised in Hs0. cbv zeta in Hs0.
  destruct Hs0 as (EK & Ex & Eu & Ix & IA & IB & IC & IS & Iz & Edt
                   & SA & SB & SC & SS & Sz & x & Hx & HV0).
  unfold Integrator.interval.
  rewrite (col_returns HX) by lia. cbn [bind].
  rewrite Ix. cbn [fst snd]. unfold set_slice.
  rewrite column_length, (proj1 HX), Nat.sub_0_r, Nat.eqb_refl. cbn [bind].
  rewrite (col_returns HU), (col_returns (k := k + 1) HU) by lia. cbn [bind].
  assert (HV0' : assign_slice 0 (n_x m) (column k X) (Integrator.V0 s)
                 = column k X ++ seed_tail (n_x m) (n_u m)).
  { unfold assign_slice. rewrite HV0. cbn [firstn app].
    rewrite skipn_app, skipn_all2 by lia.
    replace (n_x m - length x)%nat with 0%nat by lia. reflexivity. }
  rewrite HV0'.
  cbn [Integrator.with_V0 Integrator.V0 Integrator.dt]. rewrite Edt.
  fold (interval_call m K X U sigma k).
  set (s1 := Integrator.with_V0 _ s).
  assert (Hs1 : initialised m K s1).
  { unfold initialised. cbv zeta. subst s1.
    cbn [Integrator.with_V0 Integrator.K Integrator.n_x Integrator.n_u
         Integrator.x_ind Integrator.A_bar_ind Integrator.B_bar_ind
         Integrator.C_bar_ind Integrator.S_bar_ind Integrator.z_bar_ind
         Integrator.dt Integrator.A_bar Integrator.B_bar Integrator.C_bar
         Integrator.S_bar Integrator.z_bar Integrator.V0].
    repeat (split; [assumption|]).
    exists (column k X). split; [|reflexivity].
    rewrite column_length. apply (proj1 HX). }
  destruct (@recover_spec m K s1 k (odeint s1 (interval_call m K X U sigma k))
              Hs1 Hk) as (s' & Hrec & Hs' & _).
  { rewrite odeint_length. cbn [interval_call Integrator.y0].
    rewrite length_app, column_length, (proj1 HX), seed_tail_length. lia. }
  unfold Integrator.recover in Hrec. fold s1.
  unfold Integrator.recover. rewrite Hrec. cbn [bind].
  exists s'. split; [reflexivity | exact Hs'].
Qed.

(** The loop over the first [n] intervals. *)
Lemma intervals_spec s X U sigma n :
  initialised m K s -> trajectory m K (X, U, sigma) -> (n <= K - 1)%nat ->
  exists s',
    fold_left (fun acc k => st <- acc ;; Integrator.interval odeint X U sigma k st)
              (seq 0 n) (Returned (s, []))
    = Returned (s', map (interval_call m K X U sigma) (seq 0 n))
    /\ initialised m K s'.
Proof.
  intros Hs HT. induction n as [|n IH]; intros Hn.
  - exists s. split; [reflexivity | exact Hs].
  - destruct IH as (s1 & Hfold & Hs1); [lia|].
    rewrite seq_S, fold_left_app, Hfold. cbn [fold_left bind Nat.add].
    destruct (@interval_spec s1 X U sigma n
                (map (interval_call m K X U sigma) (seq 0 n)) Hs1 HT)
      as (s' & -> & Hs'); [lia|].
    exists s'. split; [|exact Hs'].
    now rewrite map_app.
Qed.

(** [calculate_discretization] returns, having called the integrator
    once per interval with [interval_call]. *)
Lemma calculate_discretization_spec s X U sigma :
  initialised m K s -> trajectory m K (X, U, sigma) ->
  exists s',
    Integrator.calculate_discretization odeint s X U sigma
    = Returned (s', map (interval_call m K X U sigma) (seq 0 (K - 1)))
    /\ initialised m K s'.
Proof.
  intros Hs HT. unfold Integrator.calculate_discretization.
  rewrite (proj1 Hs). apply (intervals_spec Hs HT (le_n _)).
Qed.

(** Any number of successive calls on one object. *)
Lemma iterate_spec inputs : forall s,
  initialised m K s -> Forall (trajectory m K) inputs ->
  exists s',
    Integrator.iterate odeint s inputs
    = Returned (s', map (fun '(X, U, sigma) =>
                           map (interval_call m K X U sigma) (seq 0 (K - 1)))
                        inputs)
    /\ initialised m K s'.
Proof.
  induction inputs as [|[[X U] sigma] rest IH]; intros s Hs HF.
  - exists s. split; [reflexivity | exact Hs].
  - inversion HF as [|? ? HT HF']; subst.
    destruct (calculate_discretization_spec Hs HT) as (s1 & Hrun & Hs1).
    destruct (IH s1 Hs1 HF') as (s' & Hrest & Hs').
    exists s'. split; [|exact Hs'].
    cbn [Integrator.iterate map]. rewrite Hrun. cbn [bind]. rewrite Hrest.
    reflexivity.
Qed.

(** [interval_call] seeds its interval. *)
Lemma interval_call_seeds s X U sigma k :
  initialised m K s -> trajectory m K (X, U, sigma) ->
  seeds s X k (interval_call m K X U sigma k).
Proof.
  intros Hs [HX HU]. unfold initialised in Hs. cbv zeta in Hs.
  destruct Hs as (EK & Ex & Eu & Ix & IA & IB & IC & IS & Iz & Edt & _).
  unfold seeds. cbv zeta. rewrite Ex, Eu, Ix, IA, IB, IC, IS, Iz, Edt.
  cbn [interval_call Integrator.y0 Integrator.t_grid].
  assert (Hx : length (column k X) = n_x m)
    by (rewrite column_length; apply (proj1 HX)).
  destruct (@seed_blocks (n_x m) (n_u m) (column k X) Hx) as (H0 & H1 & H2 & H3 & H4 & H5 & H6).
  repeat split; first [assumption | reflexivity].
Qed.

End Seeding.

Lemma nth_error_map_seq {A} (f : nat -> A) n k c :
  nth_error (map f (seq 0 n)) k = Some c -> (k < n)%nat /\ c = f k.
Proof.
  intros H.
  assert (Hk : (k < n)%nat).
  { rewrite <- (length_seq n 0), <- (length_map f).
    apply nth_error_Some. congruence. }
  split; [exact Hk|].
  apply (nth_error_nth _ _ (f 0%nat)) in H.
  rewrite map_nth, seq_nth in H by exact Hk. now symmetry.
Qed.

(** C3. Whatever trajectories the successive calls of
    [calculate_discretization] are given, every call of the integrator
    gets a seed of dimension [n_x (1 + n_x + 2 n_u + 2)], 322 here, with
    the state [x_k] in its state block, the identity in its
    transition-matrix block and zeros in the other blocks, although one
    buffer is reused; and it is integrated over the time grid [(0, dt)],
    which in the scaled time of the interval runs from [tau = 0] to
    [tau = 1].  The [K - 1] intervals share the unit of normalised
    trajectory time: [dt = 1 / (K - 1)]. *)
Theorem seed_of_every_interval odeint os rng m K inputs :
  (forall s c, length (odeint s c) = length (Integrator.y0 c)) ->
  constructed os rng m -> (2 <= K)%nat -> Forall (trajectory m K) inputs ->
  exists s0 s' logs,
    Integrator.init m K = Returned s0
    /\ Integrator.iterate odeint s0 inputs = Returned (s', logs)
    /\ Forall2 (fun input calls =>
                  let '(X, U, sigma) := input in
                  length calls = (K - 1)%nat
                  /\ forall k c, nth_error calls k = Some c ->
                       seeds s0 X k c
                       /\ length (Integrator.y0 c) = 322%nat
                       /\ Integrator.args c = (column k U, column (k + 1) U, sigma)
                       /\ Integrator.tau s0 (fst (Integrator.t_grid c)) = 0
                       /\ Integrator.tau s0 (snd (Integrator.t_grid c)) = 1)
               inputs logs
    /\ Integrator.dt s0 = 1 / INR (K - 1)
    /\ INR (K - 1) * Integrator.dt s0 = 1.
Proof.
  intros Hode HM HK HT.
  destruct (init_initialised m HK) as (s0 & Hinit & Hs0).
  destruct (@iterate_spec odeint Hode m K inputs s0 Hs0 HT) as (s' & Hrun & _).
  exists s0, s'. eexists. split; [exact Hinit|]. split; [exact Hrun|].
  pose proof Hs0 as Hf. unfold initialised in Hf. cbv zeta in Hf.
  destruct Hf as (_ & Ex & Eu & _ & _ & _ & _ & _ & _ & Edt & _).
  destruct (constructed_constants HM) as (_ & _ & _ & _ & _ & _ & Hnx & Hnu).
  assert (HK1 : INR (K - 1) <> 0) by (apply not_0_INR; lia).
  split; [|split; [exact Edt|]].
  - clear Hrun. induction inputs as [|[[X U] sigma] rest IH]; cbn [map].
    + constructor.
    + inversion HT as [|? ? HT1 HT']; subst. constructor; [|apply IH, HT'].
      split; [now rewrite length_map, length_seq|].
      intros k c Hc. apply nth_error_map_seq in Hc. destruct Hc as [Hk ->].
      pose proof (@interval_call_seeds m K s0 X U sigma k Hs0 HT1) as Hseed.
      split; [exact Hseed|].
      split; [destruct Hseed as (Hlen & _); rewrite Hlen, Ex, Eu, Hnx, Hnu;
              reflexivity|].
      split; [reflexivity|].
      unfold Integrator.tau.
      cbn [interval_call Integrator.t_grid fst snd]. rewrite Edt.
      split; field; exact HK1.
  - rewrite Edt. field. exact HK1.
Qed.

(** ** The properties on a sample flight *)

Lemma A_B_exact_jacobians_witness :
  jacobian_x f_func (A_func sample_state sample_control) sample_state sample_control
  /\ jacobian_u f_func (B_func sample_state sample_control) sample_state sample_control.
Proof.
  apply (@A_B_exact_jacobians sample_state sample_control);
    [reflexivity | reflexivity | simpl; lra | intros [= H]; lra].
Defined.

Lemma f_func_components_witness :
  let M := centred_model in
  let x := sample_state in
  let u := sample_control in
  let m := nth 0 x 0 in
  let v := slice 4 7 x in
  let q := slice 7 11 x in
  let w := slice 11 14 x in
  let w_dot := [0; nth 2 u 0; - nth 1 u 0] in
  f_func x u =
    map (fun a => [a])
        ([- alpha_m M * norm u] ++ v
         ++ vadd (g_I M) (map (fun a => a / m) (matvec (transpose 3 (dir_cosine q)) u))
         ++ scale 0.5 (matvec (omega w) q)
         ++ w_dot)
  /\ alpha_m M = 0.01
  /\ g_I M = [-1; 0; 0]
  /\ r_T_B M = [-0.01; 0; 0]
  /\ J_B M = mscale 0.01 (eye 3)
  /\ matvec (J_B M) w_dot = vsub (cross (r_T_B M) u) (cross w (matvec (J_B M) w)).
Proof.
  apply (@f_func_components centred (Some centred) centred_model
           sample_state sample_control);
    [reflexivity | reflexivity | reflexivity | simpl; lra].
Defined.

Lemma dynamics_well_defined_iff_witness :
  let x := sample_state in
  let u := sample_control in
  let m := nth 0 x 0 in
  let fx := f_func (map pure x) (map pure u) in
  let Ax := A_func (map pure x) (map pure u) in
  let Bx := B_func (map pure x) (map pure u) in
  Forall (fun o => match o with
                   | NonZero d => d = m \/ d = m ^ 2 \/ d = norm u
                   | NonNeg r => r = dot u u
                   end)
         (obligations fx ++ obligations Ax ++ obligations Bx)
  /\ (well_defined fx /\ well_defined Ax /\ well_defined Bx
      <-> m <> 0 /\ u <> zeros 3)
  /\ (well_defined fx <-> m <> 0)
  /\ (u = zeros 3 ->
      In (NonZero (norm u)) (flat_map obl (nth 0 Bx [])) /\ norm u = 0).
Proof.
  apply (@dynamics_well_defined_iff sample_state sample_control);
    reflexivity.
Defined.

Lemma initialize_trajectory_guess_witness :
  let M := centred_model in
  let K := 50%nat in
  exists X' U',
    initialize_trajectory M (zeros2 14 K) (zeros2 3 K) = Returned (X', U')
    /\ (forall k, (k < K)%nat ->
        let alpha1 := INR (K - k) / INR K in
        let alpha2 := INR k / INR K in
        column k X' =
          [alpha1 * m_wet M + alpha2 * m_dry M]
          ++ vadd (scale alpha1 (r_I_init M)) (scale alpha2 (r_I_final M))
          ++ vadd (scale alpha1 (v_I_init M)) (scale alpha2 (v_I_final M))
          ++ [1; 0; 0; 0]
          ++ vadd (scale alpha1 (w_B_init M)) (scale alpha2 (w_B_final M)))
    /\ ((0 < K)%nat ->
        column 0 X' =
          [m_wet M] ++ r_I_init M ++ v_I_init M ++ [1; 0; 0; 0] ++ w_B_init M)
    /\ ((0 < K)%nat ->
        guess_column M K K =
          [m_dry M] ++ r_I_final M ++ v_I_final M ++ [1; 0; 0; 0] ++ w_B_final M).
Proof.
  apply (@initialize_trajectory_guess centred (Some centred) centred_model 50
           (zeros2 14 50) (zeros2 3 50));
    [reflexivity | apply zeros2_shape | apply zeros2_shape].
Defined.

Lemma thrust_magnitude_constraints_witness :
  let M := centred_model in
  let K := 50%nat in
  (exists c_max c_min,
     incl [c_max; c_min] (get_constraints M K)
     /\ forall env, candidate K env ->
          (sat env c_max <->
             forall k, (k < K)%nat -> norm (control env k) <= T_max M)
          /\ (sat env c_min <->
             forall k, (k < K)%nat ->
               T_min M <= dot (map (fun a => a / norm (previous_control env k))
                                   (previous_control env k))
                              (control env k)))
  /\ forallb (fun c => negb (norm_lower_bound c)) (get_constraints M K) = true
  /\ (forall k t,
        norm_lower_bound
          (Ge (Norm (Sub2 (Leaf U_v) All (At k)) None) (Const (Scalar t))) = true)
  /\ T_max M = 5.0 /\ T_min M = 0.3.
Proof.
  apply (@thrust_magnitude_constraints centred (Some centred) centred_model 50);
    [reflexivity | lia].
Defined.

Lemma boundary_constraints_witness :
  let M := centred_model in
  let K := 50%nat in
  filter is_equality (get_constraints M K) = firstn 6 (get_constraints M K)
  /\ (forall env, candidate K env ->
        (Forall (sat env) (filter is_equality (get_constraints M K))
         <-> boundary_conditions M K env))
  /\ (forall env env',
        (2 <= K)%nat -> candidate K env -> candidate K env' ->
        same_but_free K env env' ->
        (Forall (sat env) (filter is_equality (get_constraints M K))
         <-> Forall (sat env') (filter is_equality (get_constraints M K)))).
Proof.
  apply (@boundary_constraints centred (Some centred) centred_model 50);
    [reflexivity | lia].
Defined.

Lemma path_constraints_witness :
  let M := centred_model in
  let K := 50%nat in
  (exists c_mass c_glide c_tilt c_rate c_gimbal,
     incl [c_mass; c_glide; c_tilt; c_rate; c_gimbal] (get_constraints M K)
     /\ forall env, candidate K env ->
          (sat env c_mass <->
             forall k, (k < K)%nat -> nth 0 (state env k) 0 >= m_dry M)
          /\ (sat env c_glide <->
             forall k, (k < K)%nat ->
               norm (slice 2 4 (state env k))
               <= nth 1 (state env k) 0 / tan_gamma_gs M)
          /\ (sat env c_tilt <->
             forall k, (k < K)%nat ->
               norm (slice 9 11 (state env k))
               <= sqrt ((1 - cos_theta_max M) / 2))
          /\ (sat env c_rate <->
             forall k, (k < K)%nat ->
               norm (slice 11 14 (state env k)) <= w_B_max M)
          /\ (sat env c_gimbal <->
             forall k, (k < K)%nat ->
               norm (slice 1 3 (control env k))
               <= tan_delta_max M * nth 0 (control env k) 0))
  /\ tan_gamma_gs M = tan (deg2rad 20) /\ cos_theta_max M = cos (deg2rad 90)
  /\ tan_delta_max M = tan (deg2rad 20) /\ w_B_max M = deg2rad 60
  /\ m_dry M = 2.2.
Proof.
  apply (@path_constraints centred (Some centred) centred_model 50);
    [reflexivity | lia].
Defined.

Lemma seed_of_every_interval_witness :
  let m := centred_model in
  let K := 50%nat in
  let inputs := [(zeros2 14 50, zeros2 3 50, 10); (zeros2 14 50, zeros2 3 50, 9)] in
  exists s0 s' logs,
    Integrator.init m K = Returned s0
    /\ Integrator.iterate odeint_still s0 inputs = Returned (s', logs)
    /\ Forall2 (fun input calls =>
                  let '(X, U, sigma) := input in
                  length calls = (K - 1)%nat
                  /\ forall k c, nth_error calls k = Some c ->
                       seeds s0 X k c
                       /\ length (Integrator.y0 c) = 322%nat
                       /\ Integrator.args c = (column k U, column (k + 1) U, sigma)
                       /\ Integrator.tau s0 (fst (Integrator.t_grid c)) = 0
                       /\ Integrator.tau s0 (snd (Integrator.t_grid c)) = 1)
               inputs logs
    /\ Integrator.dt s0 = 1 / INR (K - 1)
    /\ INR (K - 1) * Integrator.dt s0 = 1.
Proof.
  apply (@seed_of_every_interval odeint_still centred (Some centred)
           centred_model 50);
    [reflexivity | reflexivity | lia |].
  repeat constructor; apply zeros2_shape.
Defined.
(** ** Attitude *)

Lemma length_4 (q : vec) :
  length q = 4%nat -> exists q0 q1 q2 q3, q = [q0; q1; q2; q3].
Proof.
  intros H. destruct_length H. repeat eexists.
Qed.

Lemma cos2_as_sin2 (a : R) : cos a ^ 2 = 1 - sin a ^ 2.
Proof.
  pose proof (sin2_cos2 a) as H. unfold Rsqr in H. nra.
Qed.

Lemma euler_to_quat_norm (a : vec) : unit_quaternion (euler_to_quat a).
Proof.
  split; [reflexivity|].
  unfold euler_to_quat. cbn [zeros repeat set_item].
  set (y := nth 1 (map deg2rad a) 0 * 0.5).
  set (r := nth 0 (map deg2rad a) 0 * 0.5).
  set (p := nth 2 (map deg2rad a) 0 * 0.5).
  pose proof (cos2_as_sin2 y) as Hy.
  pose proof (cos2_as_sin2 r) as Hr.
  pose proof (cos2_as_sin2 p) as Hp.
  cbv [dot vmul zip_with sum fold_right].
  ring [Hy Hr Hp].
Qed.

(** X1. Whatever the three Euler angles, [euler_to_quat] returns a
    quaternion of four entries and norm one. *)
Theorem euler_to_quat_unit (a : vec) :
  length a = 3%nat ->
  length (euler_to_quat a) = 4%nat
  /\ dot (euler_to_quat a) (euler_to_quat a) = 1
  /\ norm (euler_to_quat a) = 1.
Proof.
  intros _. destruct (euler_to_quat_norm a) as [Hl Hd].
  split; [exact Hl|]. split; [exact Hd|].
  unfold norm. replace (sum (map (fun x => x * x) (euler_to_quat a))) with 1.
  apply sqrt_1.
Qed.

Lemma euler_to_quat_unit_witness :
  length (euler_to_quat [0; 10; 20]) = 4%nat
  /\ dot (euler_to_quat [0; 10; 20]) (euler_to_quat [0; 10; 20]) = 1
  /\ norm (euler_to_quat [0; 10; 20]) = 1.
Proof.
  apply (@euler_to_quat_unit [0; 10; 20]). reflexivity.
Defined.

(** X2. Every model the constructor returns has a unit initial attitude
    quaternion, whatever the sampler produced, and the identity as final
    attitude; both sit in entries 7 to 10 of the boundary states. *)
Theorem constructed_attitudes os rng M :
  constructed os rng M ->
  unit_quaternion (q_B_I_init M)
  /\ q_B_I_final M = [1; 0; 0; 0]
  /\ slice 7 11 (x_init M) = q_B_I_init M
  /\ slice 7 11 (x_final M) = q_B_I_final M.
Proof.
  intros HM.
  destruct (constructed_boundary HM) as (_ & _ & Hq & _ & _ & _ & _ & _ & Hf & _).
  destruct (constructed_blocks HM) as (_ & _ & _ & _ & _ & _ & E & F & _).
  split; [rewrite Hq; apply euler_to_quat_norm|].
  split; [rewrite Hf; apply euler_to_quat_zero|].
  split; assumption.
Qed.

Lemma constructed_attitudes_witness :
  unit_quaternion (q_B_I_init centred_model)
  /\ q_B_I_final centred_model = [1; 0; 0; 0]
  /\ slice 7 11 (x_init centred_model) = q_B_I_init centred_model
  /\ slice 7 11 (x_final centred_model) = q_B_I_final centred_model.
Proof.
  apply (@constructed_attitudes centred (Some centred) centred_model).
  reflexivity.
Defined.

(** X3. [skew(v) @ w] is the cross product of [v] and [w]: it is
    orthogonal to both, changes sign when they are swapped, and
    [skew(v)] is minus its transpose. *)
Theorem skew_cross_product (v w : vec) :
  length v = 3%nat -> length w = 3%nat ->
  matvec (skew v) w =
    [nth 1 v 0 * nth 2 w 0 - nth 2 v 0 * nth 1 w 0;
     nth 2 v 0 * nth 0 w 0 - nth 0 v 0 * nth 2 w 0;
     nth 0 v 0 * nth 1 w 0 - nth 1 v 0 * nth 0 w 0]
  /\ dot v (matvec (skew v) w) = 0
  /\ dot w (matvec (skew v) w) = 0
  /\ matvec (skew v) w = map Ropp (matvec (skew w) v)
  /\ transpose 3 (skew v) = mopp (skew v).
Proof.
  intros Hv Hw.
  destruct (length_3 v Hv) as (v0 & v1 & v2 & ->).
  destruct (length_3 w Hw) as (w0 & w1 & w2 & ->).
  unfold mopp. arrays. repeat split; entrywise; ring.
Qed.

Lemma skew_cross_product_witness :
  let v := [1; 2; 3] in
  let w := [0; 1; 0] in
  matvec (skew v) w =
    [nth 1 v 0 * nth 2 w 0 - nth 2 v 0 * nth 1 w 0;
     nth 2 v 0 * nth 0 w 0 - nth 0 v 0 * nth 2 w 0;
     nth 0 v 0 * nth 1 w 0 - nth 1 v 0 * nth 0 w 0]
  /\ dot v (matvec (skew v) w) = 0
  /\ dot w (matvec (skew v) w) = 0
  /\ matvec (skew v) w = map Ropp (matvec (skew w) v)
  /\ transpose 3 (skew v) = mopp (skew v).
Proof.
  apply (@skew_cross_product [1; 2; 3] [0; 1; 0]); reflexivity.
Defined.

Lemma unit_quaternion_entries (q : vec) :
  unit_quaternion q ->
  exists q0 q1 q2 q3,
    q = [q0; q1; q2; q3] /\ q0 ^ 2 = 1 - q1 ^ 2 - q2 ^ 2 - q3 ^ 2.
Proof.
  intros [Hl Hd]. destruct (length_4 q Hl) as (q0 & q1 & q2 & q3 & ->).
  exists q0, q1, q2, q3. split; [reflexivity|].
  cbv [dot vmul zip_with sum fold_right] in Hd. nra.
Qed.

(** X4. For a unit quaternion, [dir_cosine(q)] is a rotation matrix in
    the sense that its transpose is its inverse on both sides. *)
Theorem dir_cosine_orthogonal (q : vec) :
  unit_quaternion q ->
  matmul (dir_cosine q) (transpose 3 (dir_cosine q)) 3 = eye 3
  /\ matmul (transpose 3 (dir_cosine q)) (dir_cosine q) 3 = eye 3.
Proof.
  intros Hq. destruct (unit_quaternion_entries Hq) as (q0 & q1 & q2 & q3 & -> & H).
  unfold matmul. arrays. split; entrywise; ring [H].
Qed.

Lemma dir_cosine_orthogonal_witness :
  let q := [0.6; 0; 0.8; 0] in
  matmul (dir_cosine q) (transpose 3 (dir_cosine q)) 3 = eye 3
  /\ matmul (transpose 3 (dir_cosine q)) (dir_cosine q) 3 = eye 3.
Proof.
  apply (@dir_cosine_orthogonal [0.6; 0; 0.8; 0]).
  split; [reflexivity | cbv [dot vmul zip_with sum fold_right]; lra].
Defined.

(** ** Further properties of the dynamics *)

Lemma norm_3_squares (a b c : R) :
  norm [a; b; c] = sqrt (a * a + b * b + c * c).
Proof.
  unfold norm. f_equal. cbv [map sum fold_right]. ring.
Qed.

(** X5. For a unit attitude quaternion and a nonzero mass, the
    acceleration that [f_func] adds to gravity has the magnitude of the
    thrust over the mass: the rotation into the inertial frame neither
    stretches nor shrinks the thrust. *)
Theorem thrust_acceleration_magnitude (x u : vec) :
  length x = 14%nat -> length u = 3%nat -> nth 0 x 0 <> 0 ->
  unit_quaternion (slice 7 11 x) ->
  norm (thrust_acceleration x u) = norm u / Rabs (nth 0 x 0).
Proof.
  intros Hx Hu Hm Hq. name_state x u Hx Hu. cbn [nth] in Hm |- *.
  destruct (unit_quaternion_entries Hq) as (p0 & p1 & p2 & p3 & E & H).
  cbv [slice Nat.sub firstn skipn] in E. injection E as -> -> -> ->.
  unfold thrust_acceleration. arrays. rewrite !norm_3_squares.
  rewrite <- sqrt_Rsqr_abs, <- sqrt_div_alt by (apply Rlt_0_sqr; exact Hm).
  f_equal. unfold Rsqr. lits. field_simplify_eq; [|exact Hm].
  ring [H].
Qed.

Lemma thrust_acceleration_magnitude_witness :
  norm (thrust_acceleration sample_state sample_control)
  = norm sample_control / Rabs (nth 0 sample_state 0).
Proof.
  apply (@thrust_acceleration_magnitude sample_state sample_control);
    [reflexivity | reflexivity | simpl; lra |].
  split; [reflexivity | cbv [dot vmul zip_with sum fold_right slice
                              sample_state firstn skipn Nat.sub]; lra].
Defined.

(** X6. The quaternion rate of [f_func] is [0.5 * omega(w) @ q] with
    [omega(w)] minus its transpose, so it is orthogonal to the
    quaternion: the continuous dynamics keep the quaternion's norm, for
    every state and control. *)
Theorem quaternion_norm_conserved (x u : vec) :
  length x = 14%nat -> length u = 3%nat ->
  dot (slice 7 11 x) (quaternion_rate x u) = 0
  /\ transpose 4 (omega (slice 11 14 x)) = mopp (omega (slice 11 14 x)).
Proof.
  intros Hx Hu. name_state x u Hx Hu.
  unfold quaternion_rate, mopp. arrays. split; [lits; field | entrywise; ring].
Qed.

Lemma quaternion_norm_conserved_witness :
  dot (slice 7 11 sample_state) (quaternion_rate sample_state sample_control) = 0
  /\ transpose 4 (omega (slice 11 14 sample_state))
     = mopp (omega (slice 11 14 sample_state)).
Proof.
  apply (@quaternion_norm_conserved sample_state sample_control); reflexivity.
Defined.

(** X7. The mass rate of [f_func] is never positive, and it is zero
    exactly when the control is the zero vector: mass is only ever
    consumed. *)
Theorem mass_rate_nonpositive (x u : vec) :
  length x = 14%nat -> length u = 3%nat ->
  entry 0 0 (f_func x u) <= 0
  /\ (entry 0 0 (f_func x u) = 0 <-> u = zeros 3)
  /\ entry 0 0 (f_func x u) = - (0.01 * norm u).
Proof.
  intros Hx Hu. name_state x u Hx Hu.
  assert (E : entry 0 0 (f_func [m; rx; ry; rz; vx; vy; vz; q0; q1; q2; q3; wx; wy; wz]
                                [ux; uy; uz]) = - (0.01 * norm [ux; uy; uz])).
  { rewrite norm_3. cbv [entry]. arrays. lits. ring. }
  rewrite E. pose proof (sqrt_pos (sum (map (fun a => a * a) [ux; uy; uz]))) as Hp.
  fold (norm [ux; uy; uz]) in Hp.
  split; [lra|]. split; [|reflexivity].
  rewrite <- norm_3_zero. split; intros H; lra.
Qed.

Lemma mass_rate_nonpositive_witness :
  entry 0 0 (f_func sample_state sample_control) <= 0
  /\ (entry 0 0 (f_func sample_state sample_control) = 0 <-> sample_control = zeros 3)
  /\ entry 0 0 (f_func sample_state sample_control) = - (0.01 * norm sample_control).
Proof.
  apply (@mass_rate_nonpositive sample_state sample_control); reflexivity.
Defined.

(** X8. The hard-coded Jacobians agree with the helper methods: the
    velocity rows of [B_func] are the transposed [dir_cosine(q)] over
    the mass, the quaternion-by-quaternion block of [A_func] is
    [0.5 * omega(w)], and its velocity-by-mass column is minus the
    thrust acceleration over the mass. *)
Theorem jacobian_blocks (x u : vec) :
  length x = 14%nat -> length u = 3%nat -> nth 0 x 0 <> 0 ->
  let m := nth 0 x 0 in
  let q := slice 7 11 x in
  let w := slice 11 14 x in
  rows 4 7 (B_func x u) = map (map (fun a => a / m)) (transpose 3 (dir_cosine q))
  /\ map (slice 7 11) (rows 7 11 (A_func x u)) = mscale 0.5 (omega w)
  /\ column 0 (rows 4 7 (A_func x u))
     = map (fun a => - a / m) (thrust_acceleration x u).
Proof.
  intros Hx Hu Hm. name_state x u Hx Hu. cbn [nth] in Hm |- *.
  unfold rows, thrust_acceleration. arrays.
  repeat split; entrywise; lits; field; exact Hm.
Qed.

Lemma jacobian_blocks_witness :
  let x := sample_state in
  let u := sample_control in
  let m := nth 0 x 0 in
  let q := slice 7 11 x in
  let w := slice 11 14 x in
  rows 4 7 (B_func x u) = map (map (fun a => a / m)) (transpose 3 (dir_cosine q))
  /\ map (slice 7 11) (rows 7 11 (A_func x u)) = mscale 0.5 (omega w)
  /\ column 0 (rows 4 7 (A_func x u))
     = map (fun a => - a / m) (thrust_acceleration x u).
Proof.
  apply (@jacobian_blocks sample_state sample_control);
    [reflexivity | reflexivity | simpl; lra].
Defined.

(** ** Further properties of the constructor *)

Lemma tan_glideslope_bounds : 0 < tan (deg2rad 20) < 1.
Proof.
  pose proof PI_RGT_0 as Hpi. unfold deg2rad. split.
  - apply tan_gt_0; lra.
  - rewrite <- tan_PI4. apply tan_increasing; lra.
Qed.

(** X9. For every outcome of the sampler the initial state starts 3 to
    4 above the pad and at most 2 off its axis on each side, descends at
    a rate of 0.5 to 1, drifts toward the axis (each lateral velocity is
    the lateral position times a factor of [-0.5, -0.2)), and rotates at
    less than 20 degrees per time unit about each of the two lateral
    axes and not at all about the first. *)
Theorem sampled_initial_state os rng M :
  constructed os rng M ->
  valid_rng (match rng with None => os | Some g => g end) ->
  let r := r_I_init M in
  let v := v_I_init M in
  let w := w_B_init M in
  3 <= nth 0 r 0 < 4
  /\ -2 <= nth 1 r 0 < 2 /\ -2 <= nth 2 r 0 < 2
  /\ -1 <= nth 0 v 0 < -0.5
  /\ (exists c, -0.5 <= c < -0.2 /\ nth 1 v 0 = c * nth 1 r 0)
  /\ (exists c, -0.5 <= c < -0.2 /\ nth 2 v 0 = c * nth 2 r 0)
  /\ nth 0 w 0 = 0
  /\ - deg2rad 20 <= nth 1 w 0 < deg2rad 20
  /\ - deg2rad 20 <= nth 2 w 0 < deg2rad 20.
Proof.
  intros HM Hv. cbv zeta.
  destruct (constructed_boundary HM) as (Hr & Hvel & _ & Hw & _).
  set (g := match rng with None => os | Some g => g end) in *.
  pose proof (Hv (0 + cursor g)%nat) as S0. pose proof (Hv (1 + cursor g)%nat) as S1.
  pose proof (Hv (2 + cursor g)%nat) as S2. pose proof (Hv (3 + cursor g)%nat) as S3.
  pose proof (Hv (4 + cursor g)%nat) as S4. pose proof (Hv (5 + cursor g)%nat) as S5.
  pose proof (Hv (8 + cursor g)%nat) as S8. pose proof (Hv (9 + cursor g)%nat) as S9.
  pose proof PI_RGT_0 as Hpi.
  rewrite Hvel, Hw, Hr. cbn [nth map]. unfold deg2rad.
  split; [lra|]. split; [lra|]. split; [lra|]. split; [lra|].
  split; [eexists; split; [|reflexivity]; lra|].
  split; [eexists; split; [|reflexivity]; lra|].
  split; [lra|]. split; split; nra.
Qed.

Lemma sampled_initial_state_witness :
  let M := centred_model in
  let r := r_I_init M in
  let v := v_I_init M in
  let w := w_B_init M in
  3 <= nth 0 r 0 < 4
  /\ -2 <= nth 1 r 0 < 2 /\ -2 <= nth 2 r 0 < 2
  /\ -1 <= nth 0 v 0 < -0.5
  /\ (exists c, -0.5 <= c < -0.2 /\ nth 1 v 0 = c * nth 1 r 0)
  /\ (exists c, -0.5 <= c < -0.2 /\ nth 2 v 0 = c * nth 2 r 0)
  /\ nth 0 w 0 = 0
  /\ - deg2rad 20 <= nth 1 w 0 < deg2rad 20
  /\ - deg2rad 20 <= nth 2 w 0 < deg2rad 20.
Proof.
  apply (@sampled_initial_state centred (Some centred) centred_model);
    [reflexivity | intros n; simpl; lra].
Defined.

Lemma constructed_position_bounds os rng M :
  constructed os rng M ->
  valid_rng (match rng with None => os | Some g => g end) ->
  exists rx ry rz,
    r_I_init M = [rx; ry; rz] /\ 3 <= rx < 4 /\ -2 <= ry < 2 /\ -2 <= rz < 2.
Proof.
  intros HM Hv. destruct (constructed_boundary HM) as (Hr & _).
  set (g := match rng with None => os | Some g => g end) in *.
  pose proof (Hv (0 + cursor g)%nat) as S0. pose proof (Hv (1 + cursor g)%nat) as S1.
  pose proof (Hv (2 + cursor g)%nat) as S2.
  eexists _, _, _. split; [exact Hr|]. repeat split; lra.
Qed.

(** X10. The position scale [r_scale] of a constructed model is the
    distance of the initial position from the pad: at least 3 and less
    than 5, so never zero; the mass scale is the wet mass. *)
Theorem scales_nonzero os rng M :
  constructed os rng M ->
  valid_rng (match rng with None => os | Some g => g end) ->
  r_scale M = norm (r_I_init M) /\ 3 <= r_scale M < 5
  /\ m_scale M = m_wet M /\ m_scale M = 3.0.
Proof.
  intros HM Hv.
  destruct (constructed_position_bounds HM Hv) as (rx & ry & rz & Hr & Bx & By & Bz).
  assert (Es : r_scale M = norm (r_I_init M) /\ m_scale M = m_wet M
               /\ m_scale M = 3.0).
  { revert HM. unfold constructed, Rocket_Model_6DoF_init.
    intros [= <-]. repeat split. }
  destruct Es as (Es & Em & Em3).
  split; [exact Es|]. split; [|split; assumption].
  rewrite Es, Hr, norm_3_squares.
  split.
  - rewrite <- (sqrt_square 3) at 1 by lra. apply sqrt_le_1; nra.
  - rewrite <- (sqrt_square 5) by lra. apply sqrt_lt_1; nra.
Qed.

Lemma scales_nonzero_witness :
  let M := centred_model in
  r_scale M = norm (r_I_init M) /\ 3 <= r_scale M < 5
  /\ m_scale M = m_wet M /\ m_scale M = 3.0.
Proof.
  apply (@scales_nonzero centred (Some centred) centred_model);
    [reflexivity | intros n; simpl; lra].
Defined.

Lemma norm_2_squares (a b : R) : norm [a; b] = sqrt (a * a + b * b).
Proof.
  unfold norm. f_equal. cbv [map sum fold_right]. ring.
Qed.

Lemma norm_zeros n : norm (zeros n) = 0.
Proof.
  assert (H : sum (map (fun a => a * a) (zeros n)) = 0).
  { induction n as [|n IH]; [reflexivity|].
    change (0 * 0 + sum (map (fun a => a * a) (zeros n)) = 0). rewrite IH. ring. }
  unfold norm. rewrite H. apply sqrt_0.
Qed.

Lemma boundary_states_bounds os rng M :
  constructed os rng M ->
  valid_rng (match rng with None => os | Some g => g end) ->
  nth 0 (x_init M) 0 >= m_dry M
  /\ norm (slice 2 4 (x_init M)) <= nth 1 (x_init M) 0 / tan_gamma_gs M
  /\ norm (slice 11 14 (x_init M)) <= w_B_max M
  /\ norm (slice 2 4 (x_final M)) <= nth 1 (x_final M) 0 / tan_gamma_gs M
  /\ norm (slice 9 11 (x_final M)) <= sqrt ((1 - cos_theta_max M) / 2)
  /\ norm (slice 11 14 (x_final M)) <= w_B_max M.
Proof.
  intros HM Hv.
  destruct (constructed_position_bounds HM Hv) as (rx & ry & rz & Hr & Bx & By & Bz).
  destruct (constructed_boundary HM) as (_ & _ & _ & Hw & Hxi & _).
  destruct (constructed_blocks HM) as (E0 & _ & E1 & _ & _ & _ & _ & _ & E4 & _).
  destruct (constructed_constants HM) as (_ & _ & _ & _ & Hwet & Hdry & _).
  destruct (constructed_angles HM) as (Hgs & _ & _ & Hwmax & _).
  pose proof tan_glideslope_bounds as [Ht0 Ht1].
  pose proof PI_RGT_0 as Hpi.
  set (g := match rng with None => os | Some g => g end) in *.
  pose proof (Hv (8 + cursor g)%nat) as S8. pose proof (Hv (9 + cursor g)%nat) as S9.
  rewrite (constructed_x_final HM).
  assert (Hrx : nth 1 (x_init M) 0 = rx /\ slice 2 4 (x_init M) = [ry; rz]).
  { rewrite Hxi, Hr. split; reflexivity. }
  destruct Hrx as [-> ->]. rewrite E0, E4, Hw, Hwet, Hdry, Hgs, Hwmax.
  cbv [slice Nat.sub firstn skipn nth map].
  change [0; 0; 0] with (zeros 3). change [0; 0] with (zeros 2).
  rewrite !norm_zeros, norm_2_squares, norm_3_squares.
  split; [lra|]. split; [|split; [|split; [|split]]].
  - apply Rle_trans with 3.
    + rewrite <- (sqrt_square 3) by lra. apply sqrt_le_1; nra.
    + apply Rle_trans with rx; [lra|].
      apply (Rmult_le_reg_r (tan (deg2rad 20))); [exact Ht0|].
      unfold Rdiv. rewrite Rmult_assoc, Rinv_l by lra. nra.
  - unfold deg2rad in *.
    set (c := PI / 180) in *.
    set (t8 := -20 + (20 - -20) * tape g (8 + cursor g)).
    set (t9 := -20 + (20 - -20) * tape g (9 + cursor g)).
    assert (Hc : 0 <= c * c) by nra.
    assert (H8 : 0 <= 400 - t8 * t8) by (subst t8; nra).
    assert (H9 : 0 <= 400 - t9 * t9) by (subst t9; nra).
    pose proof (Rmult_le_pos _ _ H8 Hc) as P8.
    pose proof (Rmult_le_pos _ _ H9 Hc) as P9.
    rewrite <- (sqrt_square (60 * c)) by (subst c; lra).
    apply sqrt_le_1; nra.
  - unfold Rdiv. rewrite Rmult_0_l. lra.
  - apply sqrt_pos.
  - unfold deg2rad. lra.
Qed.

(** X11. The boundary states the constructor fixes respect the path
    constraints imposed on the points they are pinned to: the initial
    state has at least the dry mass, lies inside the glideslope cone and
    rotates slower than the rate bound, for every outcome of the
    sampler; the final state lies on the cone's apex, upright and not
    rotating. *)
Theorem boundary_states_admissible os rng M :
  constructed os rng M ->
  valid_rng (match rng with None => os | Some g => g end) ->
  nth 0 (x_init M) 0 >= m_dry M
  /\ norm (slice 2 4 (x_init M)) <= nth 1 (x_init M) 0 / tan_gamma_gs M
  /\ norm (slice 11 14 (x_init M)) <= w_B_max M
  /\ norm (slice 2 4 (x_final M)) <= nth 1 (x_final M) 0 / tan_gamma_gs M
  /\ norm (slice 9 11 (x_final M)) <= sqrt ((1 - cos_theta_max M) / 2)
  /\ norm (slice 11 14 (x_final M)) <= w_B_max M.
Proof.
  intros HM Hv. apply (boundary_states_bounds HM Hv).
Qed.

Lemma boundary_states_admissible_witness :
  let M := centred_model in
  nth 0 (x_init M) 0 >= m_dry M
  /\ norm (slice 2 4 (x_init M)) <= nth 1 (x_init M) 0 / tan_gamma_gs M
  /\ norm (slice 11 14 (x_init M)) <= w_B_max M
  /\ norm (slice 2 4 (x_final M)) <= nth 1 (x_final M) 0 / tan_gamma_gs M
  /\ norm (slice 9 11 (x_final M)) <= sqrt ((1 - cos_theta_max M) / 2)
  /\ norm (slice 11 14 (x_final M)) <= w_B_max M.
Proof.
  apply (@boundary_states_admissible centred (Some centred) centred_model);
    [reflexivity | intros n; simpl; lra].
Defined.

(** ** Further properties of the integrator object *)

Lemma init_seed m K :
  (2 <= K)%nat ->
  exists s, Integrator.init m K = Returned s /\ initialised m K s
            /\ Integrator.V0 s = zeros (n_x m) ++ seed_tail (n_x m) (n_u m).
Proof.
  intros HK. destruct (init_initialised m HK) as (s & Hinit & Hs).
  exists s. split; [exact Hinit|]. split; [exact Hs|].
  destruct K as [|[|K']]; try lia.
  revert Hinit. unfold Integrator.init, set_slice.
  rewrite eye_flat_length.
  replace (n_x m * (1 + n_x m) - n_x m)%nat with (n_x m * n_x m)%nat by lia.
  rewrite Nat.eqb_refl. cbn [bind]. intros [= <-]. cbn [Integrator.V0].
  unfold assign_slice. rewrite firstn_zeros, skipn_zeros by lia.
  unfold seed_tail. rewrite <- !zeros_app. do 3 f_equal. lia.
Qed.

(** X12. [Integrator.__init__] needs at least two trajectory points: it
    raises ValueError for none (a buffer of -1 columns) and
    ZeroDivisionError for one ([dt = 1/0]). Otherwise the six index
    slices tile the seed buffer from 0 to its length in the order state,
    transition matrix, two control blocks, duration, defect; the buffer
    is zero but for the identity in the transition block; and [K - 1]
    steps of [dt] make up the unit of normalised time. *)
Theorem integrator_init_outcomes m K :
  match K with
  | O => Integrator.init m K = Raised ValueError
  | S O => Integrator.init m K = Raised ZeroDivisionError
  | _ =>
      exists s,
        Integrator.init m K = Returned s
        /\ fst (Integrator.x_ind s) = 0%nat
        /\ snd (Integrator.x_ind s) = fst (Integrator.A_bar_ind s)
        /\ snd (Integrator.A_bar_ind s) = fst (Integrator.B_bar_ind s)
        /\ snd (Integrator.B_bar_ind s) = fst (Integrator.C_bar_ind s)
        /\ snd (Integrator.C_bar_ind s) = fst (Integrator.S_bar_ind s)
        /\ snd (Integrator.S_bar_ind s) = fst (Integrator.z_bar_ind s)
        /\ snd (Integrator.z_bar_ind s) = length (Integrator.V0 s)
        /\ Integrator.get (Integrator.x_ind s) (Integrator.V0 s) = zeros (n_x m)
        /\ Integrator.get (Integrator.A_bar_ind s) (Integrator.V0 s)
           = reshape_flat (eye (n_x m))
        /\ Integrator.get (snd (Integrator.A_bar_ind s), length (Integrator.V0 s))
                          (Integrator.V0 s)
           = zeros (2 * (n_x m * n_u m) + 2 * n_x m)
        /\ 0 < Integrator.dt s
        /\ INR (K - 1) * Integrator.dt s = 1
  end.
Proof.
  destruct K as [|[|K']]; [reflexivity | reflexivity |].
  set (K := S (S K')).
  assert (HK : (2 <= K)%nat) by (subst K; lia).
  destruct (init_seed m HK) as (s & Hinit & Hs & HV0).
  exists s. split; [exact Hinit|].
  unfold initialised in Hs. cbv zeta in Hs.
  destruct Hs as (_ & _ & _ & Ix & IA & IB & IC & IS & Iz & Edt & _).
  rewrite Ix, IA, IB, IC, IS, Iz, Edt, HV0. cbn [fst snd].
  assert (Hz : length (zeros (n_x m)) = n_x m) by apply zeros_length.
  destruct (@seed_blocks (n_x m) (n_u m) (zeros (n_x m)) Hz)
    as (Hlen & H0 & H1 & _).
  cbv zeta in Hlen, H0, H1.
  assert (HK1 : 0 < INR (K - 1)) by (apply lt_0_INR; subst K; lia).
  repeat split; try reflexivity; try assumption.
  - rewrite Hlen. lia.
  - unfold seed_tail.
    replace (zeros (n_x m) ++ reshape_flat (eye (n_x m)) ++ zeros (n_x m * n_u m)
             ++ zeros (n_x m * n_u m) ++ zeros (n_x m) ++ zeros (n_x m))
      with ((zeros (n_x m) ++ reshape_flat (eye (n_x m)))
            ++ (zeros (n_x m * n_u m) ++ zeros (n_x m * n_u m)
                ++ zeros (n_x m) ++ zeros (n_x m)) ++ [])
      by (now rewrite <- !app_assoc, app_nil_r).
    rewrite get_block.
    + rewrite <- !zeros_app. f_equal. lia.
    + rewrite length_app, zeros_length, eye_flat_length. lia.
    + rewrite !length_app, !zeros_length, eye_flat_length. cbn [length]. lia.
  - unfold Rdiv. rewrite Rmult_1_l. now apply Rinv_0_lt_compat.
  - field. lra.
Qed.

Lemma fold_raised {A B} (f : outcome A -> B -> outcome A) (l : list B) e :
  (forall b, f (Raised e) b = Raised e) ->
  fold_left f l (Raised e) = Raised e.
Proof.
  intros H. induction l as [|b l IH]; cbn [fold_left]; [reflexivity|].
  now rewrite H.
Qed.

(** X13. On an initialised object, [calculate_discretization] stops at
    its first interval when the state array cannot seed it: with an
    IndexError when the array has no column, and with a ValueError when
    its number of rows is neither [n_x] nor one (a single row would be
    broadcast over the state block). *)
Theorem discretization_rejects_states odeint m K s X U sigma r c :
  initialised m K s -> (2 <= K)%nat -> shape r c X -> (1 <= r)%nat ->
  (c = 0%nat ->
   Integrator.calculate_discretization odeint s X U sigma = Raised IndexError)
  /\ ((0 < c)%nat -> r <> n_x m -> r <> 1%nat ->
      Integrator.calculate_discretization odeint s X U sigma = Raised ValueError).
Proof.
  intros Hs HK HX Hr.
  pose proof Hs as Hs0. unfold initialised in Hs0. cbv zeta in Hs0.
  destruct Hs0 as (EK & _ & _ & Ix & _).
  unfold Integrator.calculate_discretization. rewrite EK.
  destruct K as [|[|K']]; try lia.
  cbn [Nat.sub seq fold_left bind Integrator.interval].
  split.
  - intros ->. unfold col.
    destruct X as [|row X']; [destruct HX as [HX _]; simpl in HX; lia|].
    destruct HX as [_ HF]. inversion HF as [|? ? Hrow _]; subst.
    cbn [forallb]. rewrite Hrow. cbn [Nat.ltb Nat.leb andb bind].
    apply fold_raised. reflexivity.
  - intros Hc Hnx H1. rewrite (col_returns HX Hc). cbn [bind].
    rewrite Ix. cbn [fst snd]. unfold set_slice.
    rewrite column_length, (proj1 HX), Nat.sub_0_r.
    destruct (Nat.eqb_spec r (n_x m)) as [E | _]; [contradiction|].
    assert (Hl : length (column 0 X) = r)
      by (rewrite column_length; apply (proj1 HX)).
    destruct (column 0 X) as [|a [|b v]]; cbn [length] in Hl; cbn [bind];
      try lia; apply fold_raised; reflexivity.
Qed.

Lemma discretization_rejects_states_witness :
  exists s,
    Integrator.init centred_model 50 = Returned s
    /\ (0%nat = 0%nat ->
        Integrator.calculate_discretization odeint_still s
          (zeros2 13 0) (zeros2 3 50) 10 = Raised IndexError)
    /\ ((0 < 50)%nat -> 13%nat <> n_x centred_model -> 13%nat <> 1%nat ->
        Integrator.calculate_discretization odeint_still s
          (zeros2 13 50) (zeros2 3 50) 10 = Raised ValueError).
Proof.
  assert (HK : (2 <= 50)%nat) by lia.
  destruct (init_initialised centred_model HK) as (s & Hinit & Hs).
  exists s. split; [exact Hinit|]. split.
  - apply (@discretization_rejects_states odeint_still centred_model 50 s
             (zeros2 13 0) (zeros2 3 50) 10 13 0 Hs HK (zeros2_shape 13 0)); lia.
  - apply (@discretization_rejects_states odeint_still centred_model 50 s
             (zeros2 13 50) (zeros2 3 50) 10 13 50 Hs HK (zeros2_shape 13 50)); lia.
Defined.

(** ** Further properties of the initial guess *)

(** The weights of point [k] among [K]. *)
Lemma guess_weights K k :
  (k < K)%nat ->
  0 < INR (K - k) / INR K <= 1 /\ 0 <= INR k / INR K
  /\ INR (K - k) / INR K + INR k / INR K = 1.
Proof.
  intros Hk.
  assert (HK : 0 < INR K) by (apply lt_0_INR; lia).
  assert (Hd : 0 < INR (K - k)) by (apply lt_0_INR; lia).
  assert (Hn : 0 <= INR k) by apply pos_INR.
  assert (Hs : INR (K - k) + INR k = INR K) by (rewrite <- plus_INR; f_equal; lia).
  assert (Hi : 0 < / INR K) by now apply Rinv_0_lt_compat.
  unfold Rdiv. repeat split.
  - now apply Rmult_lt_0_compat.
  - apply (Rmult_le_reg_r (INR K)); [exact HK|].
    rewrite Rmult_assoc, Rinv_l by lra. lra.
  - apply Rmult_le_pos; lra.
  - rewrite <- Rmult_plus_distr_r, Hs. apply Rinv_r. lra.
Qed.

(** Point [k] of the guess, entry by entry. *)
Lemma guess_point os rng M K k :
  constructed os rng M ->
  valid_rng (match rng with None => os | Some g => g end) ->
  (k < K)%nat ->
  exists a1 a2 rx ry rz vx vy vz w1 w2,
    a1 = INR (K - k) / INR K /\ a2 = INR k / INR K
    /\ 0 < a1 <= 1 /\ 0 <= a2 /\ a1 + a2 = 1
    /\ 3 <= rx < 4 /\ -2 <= ry < 2 /\ -2 <= rz < 2 /\ -1 <= vx < -0.5
    /\ x_init M = [3.0; rx; ry; rz; vx; vy; vz]
                  ++ q_B_I_init M ++ [0; w1; w2]
    /\ r_I_init M = [rx; ry; rz] /\ w_B_init M = [0; w1; w2]
    /\ guess_column M K k =
         [a1 * 3.0 + a2 * 2.2;
          a1 * rx + a2 * 0; a1 * ry + a2 * 0; a1 * rz + a2 * 0;
          a1 * vx + a2 * -0.1; a1 * vy + a2 * 0; a1 * vz + a2 * 0;
          1; 0; 0; 0;
          a1 * 0 + a2 * 0; a1 * w1 + a2 * 0; a1 * w2 + a2 * 0].
Proof.
  intros HM Hv Hk.
  destruct (guess_weights Hk) as (Ha1 & Ha2 & Hsum).
  destruct (constructed_boundary HM)
    as (Hr & Hvel & _ & Hw & Hxi & _ & Hrf & Hvf & _ & Hwf).
  destruct (constructed_constants HM) as (_ & _ & _ & _ & Hwet & Hdry & _).
  set (g := match rng with None => os | Some g => g end) in *.
  pose proof (Hv (0 + cursor g)%nat) as S0. pose proof (Hv (1 + cursor g)%nat) as S1.
  pose proof (Hv (2 + cursor g)%nat) as S2. pose proof (Hv (3 + cursor g)%nat) as S3.
  rewrite Hr in Hvel. cbn [nth] in Hvel.
  cbn [map] in Hw, Hwf. rewrite deg2rad_zero in Hw, Hwf.
  eexists _, _, _, _, _, _, _, _, _, _.
  split; [reflexivity|]. split; [reflexivity|].
  split; [exact Ha1|]. split; [exact Ha2|]. split; [exact Hsum|].
  split; [|split; [|split; [|split; [|split; [|split; [|split]]]]]].
  5: { rewrite Hxi, Hr, Hvel, Hw, Hwet. reflexivity. }
  5: exact Hr.
  5: exact Hw.
  5: { unfold guess_column. rewrite Hr, Hvel, Hw, Hrf, Hvf, Hwf, Hwet, Hdry.
       reflexivity. }
  all: lra.
Qed.

(** The control array the loop of [initialize_trajectory] leaves. *)
Lemma initialize_trajectory_controls os rng M K X U :
  constructed os rng M -> shape 14 K X -> shape 3 K U ->
  exists X' U',
    initialize_trajectory M X U = Returned (X', U')
    /\ shape 14 K X' /\ shape 3 K U'
    /\ forall k, (k < K)%nat ->
         column k X' = guess_column M K k /\
         column k U' = [nth 0 (guess_column M K k) 0 * - -1;
                        nth 0 (guess_column M K k) 0 * - 0;
                        nth 0 (guess_column M K k) 0 * - 0].
Proof.
  intros HM HX HU.
  destruct (@initialize_trajectory_loop os rng M K X U K HM HX HU (le_n K))
    as (X' & U' & Hfold & HX' & HU' & Hcols).
  exists X', U'. unfold initialize_trajectory. rewrite (ncols_shape HX).
  split; [exact Hfold|]. split; [exact HX'|]. split; [exact HU'|].
  intros k Hk. destruct (Hcols k Hk) as [Hx Hu]. split; [exact Hx|].
  rewrite Hu. destruct (constructed_constants HM) as (_ & -> & _). reflexivity.
Qed.

(** X14. The control of the initial guess is a thrust along the first
    body axis equal to the guessed mass, between the dry and the wet
    mass; with the guess's identity attitude it cancels gravity, so
    [f_func] gives a zero velocity rate at every point of the guess. *)
Theorem initial_guess_hovers os rng M K X U :
  constructed os rng M ->
  valid_rng (match rng with None => os | Some g => g end) ->
  shape 14 K X -> shape 3 K U ->
  exists X' U',
    initialize_trajectory M X U = Returned (X', U')
    /\ forall k, (k < K)%nat ->
         let m_k := nth 0 (column k X') 0 in
         m_dry M <= m_k <= m_wet M
         /\ column k U' = [m_k * - -1; m_k * - 0; m_k * - 0]
         /\ slice 4 7 (column 0 (f_func (column k X') (column k U'))) = [0; 0; 0].
Proof.
  intros HM Hv HX HU.
  destruct (initialize_trajectory_controls HM HX HU)
    as (X' & U' & Hrun & _ & _ & Hcols).
  exists X', U'. split; [exact Hrun|]. intros k Hk. cbv zeta.
  destruct (Hcols k Hk) as [Hx Hu]. rewrite Hu, Hx.
  destruct (@guess_point os rng M K k HM Hv Hk)
    as (a1 & a2 & rx & ry & rz & vx & vy & vz & w1 & w2
        & _ & _ & Ha1 & Ha2 & Hsum & _ & _ & _ & _ & _ & _ & _ & ->).
  destruct (constructed_constants HM) as (_ & _ & _ & _ & -> & -> & _).
  cbn [nth].
  assert (Hm : a1 * 3.0 + a2 * 2.2 <> 0) by nra.
  split; [nra|]. split; [reflexivity|].
  arrays. entrywise; lits; field; nra.
Qed.

Lemma initial_guess_hovers_witness :
  let M := centred_model in
  exists X' U',
    initialize_trajectory M (zeros2 14 50) (zeros2 3 50) = Returned (X', U')
    /\ forall k, (k < 50)%nat ->
         let m_k := nth 0 (column k X') 0 in
         m_dry M <= m_k <= m_wet M
         /\ column k U' = [m_k * - -1; m_k * - 0; m_k * - 0]
         /\ slice 4 7 (column 0 (f_func (column k X') (column k U'))) = [0; 0; 0].
Proof.
  apply (@initial_guess_hovers centred (Some centred) centred_model 50
           (zeros2 14 50) (zeros2 3 50));
    [reflexivity | intros n; simpl; lra | apply zeros2_shape | apply zeros2_shape].
Defined.

(** The guessed control: a thrust [a] along the first body axis. *)
Lemma axial_thrust_norms (a : R) :
  0 <= a ->
  norm [a * - -1; a * - 0; a * - 0] = a /\ norm [a * - 0; a * - 0] = 0.
Proof.
  intros Ha. rewrite norm_3_squares, norm_2_squares. split.
  - replace (a * - -1 * (a * - -1) + a * - 0 * (a * - 0) + a * - 0 * (a * - 0))
      with (a * a) by ring.
    now apply sqrt_square.
  - replace (a * - 0 * (a * - 0) + a * - 0 * (a * - 0)) with 0 by ring.
    apply sqrt_0.
Qed.

(** A blend of a vector with zero, of weight [a]. *)
Lemma blend_norms (a b y z : R) :
  0 <= a ->
  norm [a * y + b * 0; a * z + b * 0] = a * norm [y; z]
  /\ norm [a * 0 + b * 0; a * y + b * 0; a * z + b * 0] = a * norm [0; y; z].
Proof.
  intros Ha. rewrite !norm_2_squares, !norm_3_squares. split.
  - replace ((a * y + b * 0) * (a * y + b * 0) + (a * z + b * 0) * (a * z + b * 0))
      with (a * a * (y * y + z * z)) by ring.
    rewrite sqrt_mult by nra. now rewrite sqrt_square.
  - replace ((a * 0 + b * 0) * (a * 0 + b * 0)
             + (a * y + b * 0) * (a * y + b * 0) + (a * z + b * 0) * (a * z + b * 0))
      with (a * a * (0 * 0 + y * y + z * z)) by ring.
    rewrite sqrt_mult by nra. now rewrite sqrt_square.
Qed.

(** X15. Taken as the candidate of the first outer iteration, with
    itself as previous iterate, the initial guess satisfies every
    constraint of the set but one: all seven inequalities, the four
    equalities on the first state and the one on the last control hold,
    and the equality on the last state (constraint 4) fails, whatever
    the sampler produced. *)
Theorem initial_guess_feasibility os rng M K X U :
  constructed os rng M ->
  valid_rng (match rng with None => os | Some g => g end) ->
  (0 < K)%nat -> shape 14 K X -> shape 3 K U ->
  exists X' U',
    initialize_trajectory M X U = Returned (X', U')
    /\ candidate K (first_iterate X' U')
    /\ (forall n, (n < 13)%nat -> n <> 4%nat ->
          sat (first_iterate X' U') (nth_constraint n (get_constraints M K)))
    /\ ~ sat (first_iterate X' U') (nth_constraint 4 (get_constraints M K)).
Proof.
  intros HM Hv HK HX HU.
  destruct (initialize_trajectory_controls HM HX HU)
    as (X' & U' & Hrun & HX' & HU' & Hcols).
  exists X', U'. split; [exact Hrun|].
  set (env := first_iterate X' U').
  assert (Hc : candidate K env) by (repeat split; first [apply HX' | apply HU']).
  split; [exact Hc|].
  assert (Hpt : forall k, (k < K)%nat ->
            exists a1 a2 rx ry rz vx vy vz w1 w2,
              a1 = INR (K - k) / INR K /\ a2 = INR k / INR K
              /\ 0 < a1 <= 1 /\ 0 <= a2 /\ a1 + a2 = 1
              /\ 3 <= rx < 4 /\ -2 <= ry < 2 /\ -2 <= rz < 2 /\ -1 <= vx < -0.5
              /\ x_init M = [3.0; rx; ry; rz; vx; vy; vz]
                            ++ q_B_I_init M ++ [0; w1; w2]
              /\ r_I_init M = [rx; ry; rz] /\ w_B_init M = [0; w1; w2]
              /\ state env k =
                   [a1 * 3.0 + a2 * 2.2;
                    a1 * rx + a2 * 0; a1 * ry + a2 * 0; a1 * rz + a2 * 0;
                    a1 * vx + a2 * -0.1; a1 * vy + a2 * 0; a1 * vz + a2 * 0;
                    1; 0; 0; 0;
                    a1 * 0 + a2 * 0; a1 * w1 + a2 * 0; a1 * w2 + a2 * 0]
              /\ control env k =
                   [(a1 * 3.0 + a2 * 2.2) * - -1; (a1 * 3.0 + a2 * 2.2) * - 0;
                    (a1 * 3.0 + a2 * 2.2) * - 0]
              /\ previous_control env k = control env k).
  { intros k Hk. destruct (Hcols k Hk) as [Hx Hu].
    destruct (@guess_point os rng M K k HM Hv Hk)
      as (a1 & a2 & rx & ry & rz & vx & vy & vz & w1 & w2
          & E1 & E2 & Ha1 & Ha2 & Hsum & Bx & By & Bz & Bv & Exi & Er & Ew & Eg).
    exists a1, a2, rx, ry, rz, vx, vy, vz, w1, w2.
    unfold state, control, previous_control, env. cbn [first_iterate].
    rewrite Hu, Hx, Eg. cbn [nth]. repeat split; try assumption; lra. }
  destruct (boundary_states_bounds HM Hv) as (_ & Hgl & Hrt & _).
  destruct (constructed_blocks HM) as (E0 & _ & _ & _ & _ & _ & _ & _ & E4 & _).
  destruct (constructed_constants HM) as (_ & _ & _ & _ & Hwet & Hdry & _).
  destruct (constructed_angles HM) as (Hgs & _ & Hdm & Hwmax & Hmax & Hmin).
  pose proof tan_glideslope_bounds as [Ht0 Ht1].
  pose proof PI_RGT_0 as Hpi.
  split.
  - by_cases_lt; intros Hn; try (contradiction Hn; reflexivity); clear Hn;
      cbn [nth_constraint nth get_constraints app].
    + (* initial mass *)
      apply (proj2 (sat_initial_mass M HK Hc)).
      destruct (Hpt 0%nat HK)
        as (a1 & a2 & rx & ry & rz & vx & vy & vz & w1 & w2
            & E1 & E2 & Ha1 & Ha2 & Hsum & _ & _ & _ & _ & Exi & _ & _ & -> & _).
      rewrite Exi. cbn [nth app]. simpl in E2. nra.
    + apply (proj2 (sat_initial_block M HK Hc _ _)).
      destruct (Hpt 0%nat HK)
        as (a1 & a2 & rx & ry & rz & vx & vy & vz & w1 & w2
            & E1 & E2 & Ha1 & Ha2 & Hsum & _ & _ & _ & _ & Exi & _ & _ & -> & _).
      rewrite Exi. cbv [slice Nat.sub firstn skipn app]. simpl in E2.
      entrywise; nra.
    + apply (proj2 (sat_initial_block M HK Hc _ _)).
      destruct (Hpt 0%nat HK)
        as (a1 & a2 & rx & ry & rz & vx & vy & vz & w1 & w2
            & E1 & E2 & Ha1 & Ha2 & Hsum & _ & _ & _ & _ & Exi & _ & _ & -> & _).
      rewrite Exi. cbv [slice Nat.sub firstn skipn app]. simpl in E2.
      entrywise; nra.
    + apply (proj2 (sat_initial_block M HK Hc _ _)). rewrite E4.
      destruct (Hpt 0%nat HK)
        as (a1 & a2 & rx & ry & rz & vx & vy & vz & w1 & w2
            & E1 & E2 & Ha1 & Ha2 & Hsum & _ & _ & _ & _ & _ & _ & -> & -> & _).
      cbv [slice Nat.sub firstn skipn app]. simpl in E2.
      entrywise; nra.
    + (* final thrust *)
      apply (proj2 (sat_final_thrust HK Hc)).
      assert (HK1 : (K - 1 < K)%nat) by lia.
      destruct (Hpt (K - 1)%nat HK1)
        as (a1 & a2 & rx & ry & rz & vx & vy & vz & w1 & w2
            & _ & _ & _ & _ & _ & _ & _ & _ & _ & _ & _ & _ & _ & -> & _).
      cbn [nth]. split; ring.
    + (* mass floor *)
      apply (proj2 (sat_mass_floor M HK Hc)). intros k Hk.
      destruct (Hpt k Hk)
        as (a1 & a2 & rx & ry & rz & vx & vy & vz & w1 & w2
            & _ & _ & Ha1 & Ha2 & Hsum & _ & _ & _ & _ & _ & _ & _ & -> & _).
      cbn [nth]. rewrite Hdry. lra.
    + (* glideslope *)
      apply (proj2 (sat_glideslope M HK Hc)). intros k Hk.
      destruct (Hpt k Hk)
        as (a1 & a2 & rx & ry & rz & vx & vy & vz & w1 & w2
            & _ & _ & Ha1 & Ha2 & Hsum & Bx & _ & _ & _ & Exi & _ & _ & -> & _).
      rewrite Exi in Hgl. cbv [slice Nat.sub firstn skipn app nth] in Hgl |- *.
      rewrite (proj1 (@blend_norms a1 a2 ry rz (Rlt_le _ _ (proj1 Ha1)))).
      replace ((a1 * rx + a2 * 0) / tan_gamma_gs M)
        with (a1 * (rx / tan_gamma_gs M)) by (unfold Rdiv; ring).
      apply Rmult_le_compat_l; lra.
    + (* tilt *)
      apply (proj2 (sat_tilt M Hc)). intros k Hk.
      destruct (Hpt k Hk)
        as (a1 & a2 & rx & ry & rz & vx & vy & vz & w1 & w2
            & _ & _ & _ & _ & _ & _ & _ & _ & _ & _ & _ & _ & -> & _).
      cbv [slice Nat.sub firstn skipn]. change [0; 0] with (zeros 2).
      rewrite norm_zeros. apply sqrt_pos.
    + (* angular rate *)
      apply (proj2 (sat_angular_rate M Hc)). intros k Hk.
      destruct (Hpt k Hk)
        as (a1 & a2 & rx & ry & rz & vx & vy & vz & w1 & w2
            & _ & _ & Ha1 & Ha2 & Hsum & _ & _ & _ & _ & _ & _ & Ew & -> & _).
      rewrite E4, Ew in Hrt. cbv [slice Nat.sub firstn skipn].
      rewrite (proj2 (@blend_norms a1 a2 w1 w2 (Rlt_le _ _ (proj1 Ha1)))).
      pose proof (sqrt_pos (sum (map (fun a => a * a) [0; w1; w2]))) as Hn.
      fold (norm [0; w1; w2]) in Hn. nra.
    + (* gimbal *)
      apply (proj2 (sat_gimbal M HK Hc)). intros k Hk.
      destruct (Hpt k Hk)
        as (a1 & a2 & rx & ry & rz & vx & vy & vz & w1 & w2
            & _ & _ & Ha1 & Ha2 & Hsum & _ & _ & _ & _ & _ & _ & _ & _ & -> & _).
      cbv [slice Nat.sub firstn skipn nth].
      assert (Hm : 0 <= a1 * 3.0 + a2 * 2.2) by nra.
      rewrite (proj2 (axial_thrust_norms Hm)), Hdm. nra.
    + (* maximum thrust *)
      apply (proj2 (sat_upper_thrust M Hc)). intros k Hk.
      destruct (Hpt k Hk)
        as (a1 & a2 & rx & ry & rz & vx & vy & vz & w1 & w2
            & _ & _ & Ha1 & Ha2 & Hsum & _ & _ & _ & _ & _ & _ & _ & _ & -> & _).
      assert (Hm : 0 <= a1 * 3.0 + a2 * 2.2) by nra.
      rewrite (proj1 (axial_thrust_norms Hm)), Hmax. nra.
    + (* minimum thrust, linearized *)
      apply (proj2 (sat_lower_thrust M HK Hc)). intros k Hk.
      destruct (Hpt k Hk)
        as (a1 & a2 & rx & ry & rz & vx & vy & vz & w1 & w2
            & _ & _ & Ha1 & Ha2 & Hsum & _ & _ & _ & _ & _ & _ & _ & _ & Ec & ->).
      rewrite Ec.
      assert (Hm : 0 <= a1 * 3.0 + a2 * 2.2) by nra.
      rewrite (proj1 (axial_thrust_norms Hm)), Hmin.
      cbv [dot vmul zip_with map sum fold_right].
      replace ((a1 * 3.0 + a2 * 2.2) * - -1 / (a1 * 3.0 + a2 * 2.2)
               * ((a1 * 3.0 + a2 * 2.2) * - -1)
               + ((a1 * 3.0 + a2 * 2.2) * - 0 / (a1 * 3.0 + a2 * 2.2)
                  * ((a1 * 3.0 + a2 * 2.2) * - 0)
                  + ((a1 * 3.0 + a2 * 2.2) * - 0 / (a1 * 3.0 + a2 * 2.2)
                     * ((a1 * 3.0 + a2 * 2.2) * - 0) + 0)))
        with (a1 * 3.0 + a2 * 2.2) by (field; nra).
      nra.
  - (* the last state *)
    intros Hs. apply (proj1 (sat_final_state M HK Hc)) in Hs.
    assert (HK1 : (K - 1 < K)%nat) by lia.
    destruct (Hpt (K - 1)%nat HK1)
      as (a1 & a2 & rx & ry & rz & vx & vy & vz & w1 & w2
          & _ & _ & Ha1 & Ha2 & Hsum & _ & _ & _ & Bv & _ & _ & _ & Es & _).
    rewrite Es, (constructed_x_final HM) in Hs. cbn [skipn] in Hs.
    injection Hs as _ _ _ Hvx _. nra.
Qed.

Lemma initial_guess_feasibility_witness :
  let M := centred_model in
  let K := 50%nat in
  exists X' U',
    initialize_trajectory M (zeros2 14 K) (zeros2 3 K) = Returned (X', U')
    /\ candidate K (first_iterate X' U')
    /\ (forall n, (n < 13)%nat -> n <> 4%nat ->
          sat (first_iterate X' U') (nth_constraint n (get_constraints M K)))
    /\ ~ sat (first_iterate X' U') (nth_constraint 4 (get_constraints M K)).
Proof.
  apply (@initial_guess_feasibility centred (Some centred) centred_model 50
           (zeros2 14 50) (zeros2 3 50));
    [reflexivity | intros n; simpl; lra | lia
     | apply zeros2_shape | apply zeros2_shape].
Defined.

(** ** Further properties of the constraint set *)

(** Cauchy-Schwarz for the projection on a direction. *)
Lemma projection_le_norm (p u : vec) :
  length p = 3%nat -> length u = 3%nat -> norm p <> 0 ->
  dot (map (fun a => a / norm p) p) u <= norm u.
Proof.
  intros Hp Hu Hn.
  destruct (length_3 p Hp) as (p0 & p1 & p2 & ->).
  destruct (length_3 u Hu) as (u0 & u1 & u2 & ->).
  rewrite norm_3_squares in Hn. rewrite !norm_3_squares.
  set (Sp := p0 * p0 + p1 * p1 + p2 * p2) in *.
  set (Su := u0 * u0 + u1 * u1 + u2 * u2).
  pose proof (sqrt_pos Sp) as Np. pose proof (sqrt_pos Su) as Nu.
  assert (Hsp : 0 <= Sp) by (subst Sp; nra).
  assert (Hsu : 0 <= Su) by (subst Su; nra).
  assert (Hpos : 0 < sqrt Sp) by lra.
  cbv [dot vmul zip_with map sum fold_right].
  replace (p0 / sqrt Sp * u0 + (p1 / sqrt Sp * u1 + (p2 / sqrt Sp * u2 + 0)))
    with ((p0 * u0 + p1 * u1 + p2 * u2) / sqrt Sp) by (field; lra).
  apply (Rmult_le_reg_r (sqrt Sp)); [exact Hpos|].
  unfold Rdiv. rewrite Rmult_assoc, Rinv_l, Rmult_1_r by lra.
  rewrite <- sqrt_mult by assumption.
  set (d := p0 * u0 + p1 * u1 + p2 * u2).
  destruct (Rle_lt_dec d 0) as [Hd | Hd].
  - pose proof (sqrt_pos (Su * Sp)). lra.
  - rewrite <- (sqrt_square d) by lra. apply sqrt_le_1; [nra | apply Rmult_le_pos; assumption |].
    subst d Su Sp.
    pose proof (Rle_0_sqr (p0 * u1 - p1 * u0)) as H1.
    pose proof (Rle_0_sqr (p0 * u2 - p2 * u0)) as H2.
    pose proof (Rle_0_sqr (p1 * u2 - p2 * u1)) as H3.
    unfold Rsqr in H1, H2, H3. clear - H1 H2 H3. lra.
Qed.

Lemma control_length K env k : candidate K env -> length (control env k) = 3%nat.
Proof.
  intros (_ & (Hl & _) & _). unfold control. now rewrite column_length.
Qed.

Lemma previous_control_length K env k :
  candidate K env -> length (previous_control env k) = 3%nat.
Proof.
  intros (_ & _ & _ & (Hl & _)). unfold previous_control. now rewrite column_length.
Qed.

(** X16. The linearized minimum-thrust constraint is on the safe side:
    the projection of a control on the previous iterate's direction
    never exceeds its norm, so at every step where the previous control
    is not zero a candidate that satisfies the constraint has a thrust
    of at least [T_min]. *)
Theorem linearized_minimum_is_conservative os rng M K env :
  constructed os rng M -> (0 < K)%nat -> candidate K env ->
  forall k, (k < K)%nat -> norm (previous_control env k) <> 0 ->
    dot (map (fun a => a / norm (previous_control env k)) (previous_control env k))
        (control env k)
    <= norm (control env k)
    /\ (sat env (nth_constraint 12 (get_constraints M K)) ->
        T_min M <= norm (control env k)).
Proof.
  intros HM HK Hc k Hk Hn.
  pose proof (@projection_le_norm (previous_control env k) (control env k)
                (previous_control_length k Hc) (control_length k Hc) Hn) as Hle.
  split; [exact Hle|].
  cbn [nth_constraint nth get_constraints app]. intros Hs.
  pose proof (proj1 (sat_lower_thrust M HK Hc) Hs k Hk) as Hp. lra.
Qed.

Lemma axial_controls_shape a K : shape 3 K (axial_controls a K).
Proof.
  split; [reflexivity|].
  repeat constructor; first [apply repeat_length | apply zeros_length].
Qed.

Lemma axial_candidate a K :
  candidate K (first_iterate (zeros2 14 K) (axial_controls a K)).
Proof.
  repeat split; first [apply zeros2_shape | apply axial_controls_shape
                       | reflexivity
                       | repeat constructor;
                         first [apply repeat_length | apply zeros_length]].
Qed.

Lemma axial_controls_column a K k :
  (k < K)%nat -> column k (axial_controls a K) = [a; 0; 0].
Proof.
  intros Hk. unfold axial_controls, column, zeros. cbn [map].
  rewrite (nth_indep (repeat a K) 0 a) by (rewrite repeat_length; exact Hk).
  now rewrite !nth_repeat.
Qed.

Lemma linearized_minimum_is_conservative_witness :
  let M := centred_model in
  let K := 50%nat in
  let env := first_iterate (zeros2 14 50) (axial_controls 1 50) in
  let k := 0%nat in
  dot (map (fun a => a / norm (previous_control env k)) (previous_control env k))
      (control env k)
  <= norm (control env k)
  /\ (sat env (nth_constraint 12 (get_constraints M K)) ->
      T_min M <= norm (control env k)).
Proof.
  apply (@linearized_minimum_is_conservative centred (Some centred)
           centred_model 50 (first_iterate (zeros2 14 50) (axial_controls 1 50)));
    [reflexivity | lia | apply axial_candidate | lia |].
  unfold previous_control. cbn [first_iterate].
  rewrite axial_controls_column by lia.
  intros H. apply norm_3_zero in H. injection H as H. lra.
Defined.

(** X17. The gimbal cone keeps the thrust forward: a candidate that
    satisfies it has, at every step, a nonnegative thrust along the
    first body axis, and a lateral thrust no larger than it (the
    tangent of 20 degrees is below one). *)
Theorem gimbal_keeps_thrust_forward os rng M K env :
  constructed os rng M -> (0 < K)%nat -> candidate K env ->
  forall k, (k < K)%nat ->
    sat env (nth_constraint 10 (get_constraints M K)) ->
    0 <= nth 0 (control env k) 0
    /\ norm (slice 1 3 (control env k)) <= nth 0 (control env k) 0.
Proof.
  intros HM HK Hc k Hk Hs.
  cbn [nth_constraint nth get_constraints app] in Hs.
  pose proof (proj1 (sat_gimbal M HK Hc) Hs k Hk) as Hg.
  destruct (constructed_angles HM) as (_ & _ & Hdm & _). rewrite Hdm in Hg.
  pose proof tan_glideslope_bounds as [Ht0 Ht1].
  pose proof (sqrt_pos (sum (map (fun a => a * a) (slice 1 3 (control env k))))) as Hn.
  fold (norm (slice 1 3 (control env k))) in Hn.
  assert (Hx : 0 <= nth 0 (control env k) 0) by nra.
  split; [exact Hx | nra].
Qed.

Lemma gimbal_keeps_thrust_forward_witness :
  let M := centred_model in
  let K := 50%nat in
  let env := first_iterate (zeros2 14 50) (axial_controls 1 50) in
  let k := 0%nat in
  0 <= nth 0 (control env k) 0
  /\ norm (slice 1 3 (control env k)) <= nth 0 (control env k) 0.
Proof.
  assert (HK : (0 < 50)%nat) by lia.
  apply (@gimbal_keeps_thrust_forward centred (Some centred)
           centred_model 50 (first_iterate (zeros2 14 50) (axial_controls 1 50)));
    [reflexivity | exact HK | apply axial_candidate | exact HK |].
  cbn [nth_constraint nth get_constraints app].
  apply (proj2 (sat_gimbal centred_model HK (axial_candidate 1 50))).
  intros k Hk. unfold control. cbn [first_iterate].
  rewrite axial_controls_column by exact Hk.
  cbv [slice Nat.sub firstn skipn nth]. change [0; 0] with (zeros 2).
  rewrite norm_zeros.
  pose proof tan_glideslope_bounds as [Ht0 _].
  change (tan_delta_max centred_model) with (tan (deg2rad 20)). lra.
Defined.
